(** * sebak storage: the LevelDB backend (lib/storage/leveldb.go)

    A shallow embedding of [LevelDBBackend] and of the part of the ordered
    key-value engine it drives, with the properties of the storage
    specification stated over it. *)

From Stdlib Require Import ZArith NArith List Lia Bool.
From Stdlib Require Import Strings.Byte Strings.String Strings.Ascii.
From Stdlib Require Import DecimalString DecimalZ.
From stdpp Require Import base option list sorting countable gmap strings.

Local Open Scope Z_scope.

(** ** Bytes and their order *)

Abbreviation byte := Byte.byte.
Abbreviation bytes := (list Byte.byte).

#[global] Instance byte_eq_decision : EqDecision byte := Byte.byte_eq_dec.
#[global] Instance byte_countable : Countable byte :=
  inj_countable Byte.to_N Byte.of_N Byte.of_to_N.

(** [bytes.Compare]: byte-wise lexicographic comparison, the order of the
    engine's keys. *)
Fixpoint bytes_compare (a b : bytes) : comparison :=
  match a, b with
  | [], [] => Eq
  | [], _ :: _ => Lt
  | _ :: _, [] => Gt
  | x :: a', y :: b' =>
      match N.compare (Byte.to_N x) (Byte.to_N y) with
      | Eq => bytes_compare a' b'
      | c => c
      end
  end.

Definition bytes_lt (a b : bytes) : Prop := bytes_compare a b = Lt.
Definition bytes_le (a b : bytes) : Prop := bytes_compare a b <> Gt.

#[global] Instance comparison_eq_decision : EqDecision comparison.
Proof. solve_decision. Defined.
#[global] Instance bytes_lt_decision a b : Decision (bytes_lt a b).
Proof. unfold bytes_lt. apply _. Defined.
#[global] Instance bytes_le_decision a b : Decision (bytes_le a b).
Proof. unfold bytes_le. apply _. Defined.

(** [bytes.HasPrefix] *)
Fixpoint has_prefix (p k : bytes) : bool :=
  match p, k with
  | [], _ => true
  | _ :: _, [] => false
  | x :: p', y :: k' => if decide (x = y) then has_prefix p' k' else false
  end.

(** [[]byte(s)]: a Go string is its byte sequence. *)
Definition makeKey (key : string) : bytes := list_byte_of_string key.

(** ** Errors

    Every error the backend builds itself is a message ([errors.New],
    [fmt.Errorf]); the constructors keep the message apart from the key it
    is formatted with. *)

Inductive LevelDBError :=
| ErrNotFound            (* leveldb.ErrNotFound *)
| ErrTransactionDone.    (* leveldb: transaction already closed *)

Inductive error :=
| ErrAlreadyTransaction                (* OpenTransaction *)
| ErrNotTransaction                    (* Discard, Commit *)
| ErrKeyNotExists (k : string)         (* GetRaw, Set, Remove *)
| ErrKeyAlreadyExists (k : string)     (* New *)
| ErrEmptyValues                       (* News, Sets *)
| ErrFoundExistingKey (k : string)     (* News *)
| ErrNotFoundKey (k : string)          (* Sets *)
| ErrLevelDB (e : LevelDBError)        (* returned by the engine *)
| ErrEncode (msg : string)             (* returned by Serialize or the encoder *)
| ErrDecode (msg : string).            (* returned by the decoder *)

(** The text of [err.Error()]. *)
Definition error_message (e : error) : string :=
  match e with
  | ErrAlreadyTransaction => "this is already *leveldb.Transaction"
  | ErrNotTransaction => "this is not *leveldb.Transaction"
  | ErrKeyNotExists k => "key, '" ++ k ++ "' does not exists"
  | ErrKeyAlreadyExists k => "key, '" ++ k ++ "' already exists"
  | ErrEmptyValues => "empty values"
  | ErrFoundExistingKey k => "found existing key, '" ++ k ++ "'"
  | ErrNotFoundKey k => "not found key, '" ++ k ++ "'"
  | ErrLevelDB ErrNotFound => "leveldb: not found"
  | ErrLevelDB ErrTransactionDone => "leveldb: transaction already closed"
  | ErrEncode msg | ErrDecode msg => msg
  end%string.

(** The error kinds of the specification (section 7). *)
Inductive ErrorKind :=
| NotFound | AlreadyExists | EmptyBatch | NoNestedTransaction
| NotATransaction | CommitConflict | DecodeError | EngineIOError
| EncodeError.   (* an encoder's error: the specification names no kind for it *)

Definition kind (e : error) : ErrorKind :=
  match e with
  | ErrAlreadyTransaction => NoNestedTransaction
  | ErrNotTransaction => NotATransaction
  | ErrKeyNotExists _ | ErrNotFoundKey _ => NotFound
  | ErrKeyAlreadyExists _ | ErrFoundExistingKey _ => AlreadyExists
  | ErrEmptyValues => EmptyBatch
  | ErrLevelDB _ => EngineIOError
  | ErrEncode _ => EncodeError
  | ErrDecode _ => DecodeError
  end.

(** [err != nil] *)
Definition is_err {E} (err : option E) : bool :=
  match err with Some _ => true | None => false end.

(** ** The engine

    The ordered key-value engine is outside the repository; the backend
    uses it through [LevelDBCore] (Has, Get, NewIterator, Put, Write,
    Delete) and through the transaction calls of [*leveldb.DB] and
    [*leveldb.Transaction]. The model below is the engine's documented
    contract over an in-memory keyspace: a root keyspace, and transactions
    that work on a private copy of it until they are committed or
    discarded. The engine makes a writer wait while a transaction is open;
    waiting is not represented, the model is sequential. *)

Abbreviation Store := (gmap bytes bytes).

Record Transaction := {
  tr_store : Store;      (* the transactional view *)
  tr_closed : bool       (* committed or discarded *)
}.

Record World := {
  db : Store;                         (* the keyspace of *leveldb.DB *)
  transactions : list Transaction     (* the *leveldb.Transaction objects *)
}.

(** The dynamic type of the [core] field: [*leveldb.DB] or
    [*leveldb.Transaction]. *)
Inductive LevelDBCore :=
| CoreDB
| CoreTransaction (id : nat).

(** The keyspace an operation on [c] works on, [None] once a transaction
    is closed. *)
Definition view (w : World) (c : LevelDBCore) : option Store :=
  match c with
  | CoreDB => Some (db w)
  | CoreTransaction id =>
      match transactions w !! id with
      | Some tr => if tr_closed tr then None else Some (tr_store tr)
      | None => None
      end
  end.

Definition set_view (w : World) (c : LevelDBCore) (s : Store) : World :=
  match c with
  | CoreDB => {| db := s; transactions := transactions w |}
  | CoreTransaction id =>
      {| db := db w;
         transactions :=
           <[id := {| tr_store := s; tr_closed := false |}]> (transactions w) |}
  end.

Definition coreHas (w : World) (c : LevelDBCore) (key : bytes)
  : bool * option error :=
  match view w c with
  | Some s => (bool_decide (is_Some (s !! key)), None)
  | None => (false, Some (ErrLevelDB ErrTransactionDone))
  end.

Definition coreGet (w : World) (c : LevelDBCore) (key : bytes)
  : bytes * option error :=
  match view w c with
  | Some s =>
      match s !! key with
      | Some value => (value, None)
      | None => ([], Some (ErrLevelDB ErrNotFound))
      end
  | None => ([], Some (ErrLevelDB ErrTransactionDone))
  end.

Definition corePut (w : World) (c : LevelDBCore) (key value : bytes)
  : option error * World :=
  match view w c with
  | Some s => (None, set_view w c (<[key := value]> s))
  | None => (Some (ErrLevelDB ErrTransactionDone), w)
  end.

Definition coreDelete (w : World) (c : LevelDBCore) (key : bytes)
  : option error * World :=
  match view w c with
  | Some s => (None, set_view w c (delete key s))
  | None => (Some (ErrLevelDB ErrTransactionDone), w)
  end.

(** [leveldb.Batch]: the records of [batch.Put], in call order. *)
Abbreviation Batch := (list (bytes * bytes)).

Definition batchPut (batch : Batch) (key value : bytes) : Batch :=
  batch ++ [(key, value)].

Definition apply_batch (batch : Batch) (s : Store) : Store :=
  foldl (fun acc kv => <[kv.1 := kv.2]> acc) s batch.

(** [Write]: the whole batch or nothing. *)
Definition coreWrite (w : World) (c : LevelDBCore) (batch : Batch)
  : option error * World :=
  match view w c with
  | Some s => (None, set_view w c (apply_batch batch s))
  | None => (Some (ErrLevelDB ErrTransactionDone), w)
  end.

(** [OpenTransaction] of [*leveldb.DB], where no transaction is open:
    the engine makes the call wait until the open one is closed. *)
Definition dbOpenTransaction (w : World) : nat * option error * World :=
  (length (transactions w), None,
   {| db := db w;
      transactions :=
        transactions w ++ [{| tr_store := db w; tr_closed := false |}] |}).

(** [Commit] of [*leveldb.Transaction]: an error once the transaction is
    closed. *)
Definition trCommit (w : World) (id : nat) : option error * World :=
  match transactions w !! id with
  | Some tr =>
      if tr_closed tr then (Some (ErrLevelDB ErrTransactionDone), w)
      else (None,
            {| db := tr_store tr;
               transactions :=
                 <[id := {| tr_store := tr_store tr; tr_closed := true |}]>
                   (transactions w) |})
  | None => (Some (ErrLevelDB ErrTransactionDone), w)
  end.

(** [Discard] of [*leveldb.Transaction]: returns nothing, and does nothing
    once the transaction is closed. *)
Definition trDiscard (w : World) (id : nat) : World :=
  match transactions w !! id with
  | Some tr =>
      if tr_closed tr then w
      else {| db := db w;
              transactions :=
                <[id := {| tr_store := tr_store tr; tr_closed := true |}]>
                  (transactions w) |}
  | None => w
  end.

(** *** Ranges *)

(** [util.Range]: [Start] is included, [Limit] is excluded; a nil [Limit]
    is no bound. *)
Record Range := { Start : bytes; Limit : option bytes }.

(** [c + 1] on a [uint8]. *)
Definition byte_add1 (c : byte) : byte :=
  match Byte.of_N ((Byte.to_N c + 1) mod 256) with
  | Some c' => c'
  | None => c
  end.

(** The loop of [util.BytesPrefix], [i] running from [len(prefix) - 1]
    down to 0: the first byte below 0xff found is incremented and ends the
    limit. *)
Fixpoint BytesPrefix_limit (prefix : bytes) (i : nat) : option bytes :=
  match i with
  | O => None
  | S j =>
      match prefix !! j with
      | Some c =>
          if (Byte.to_N c <? 255)%N
          then Some (take j prefix ++ [byte_add1 c])
          else BytesPrefix_limit prefix j
      | None => BytesPrefix_limit prefix j
      end
  end.

Definition BytesPrefix (prefix : bytes) : Range :=
  {| Start := prefix; Limit := BytesPrefix_limit prefix (length prefix) |}.

Definition in_range (r : option Range) (key : bytes) : bool :=
  match r with
  | None => true
  | Some r =>
      bool_decide (bytes_le (Start r) key)
      && match Limit r with
         | Some limit => bool_decide (bytes_lt key limit)
         | None => true
         end
  end.

(** *** Cursors *)

(** [iterator.Iterator]: a snapshot of the records of the range in key
    order, a position ([-1] before the first record, the length after the
    last) and whether [Release] was called. *)
Record Iterator := {
  it_records : list (bytes * bytes);
  it_pos : Z;
  it_released : bool
}.

Definition key_le (a b : bytes * bytes) : Prop := bytes_le a.1 b.1.
#[global] Instance key_le_decision a b : Decision (key_le a b).
Proof. unfold key_le. apply _. Defined.

Definition records (s : Store) (r : option Range) : list (bytes * bytes) :=
  merge_sort key_le (filter (fun kv => in_range r kv.1 = true) (map_to_list s)).

Definition coreNewIterator (w : World) (c : LevelDBCore) (r : option Range)
  : Iterator :=
  match view w c with
  | Some s => {| it_records := records s r; it_pos := -1; it_released := false |}
  | None => {| it_records := []; it_pos := -1; it_released := false |}
  end.

Definition it_len (it : Iterator) : Z := Z.of_nat (length (it_records it)).

Definition iterMove (it : Iterator) (pos : Z) : Iterator :=
  {| it_records := it_records it; it_pos := pos; it_released := it_released it |}.

Definition iterNext (it : Iterator) : bool * Iterator :=
  if it_released it then (false, it)
  else if it_pos it + 1 <? it_len it then (true, iterMove it (it_pos it + 1))
  else (false, iterMove it (it_len it)).

Definition iterPrev (it : Iterator) : bool * Iterator :=
  if it_released it then (false, it)
  else if 0 <=? it_pos it - 1 then (true, iterMove it (it_pos it - 1))
  else (false, iterMove it (-1)).

Definition iterLast (it : Iterator) : bool * Iterator :=
  if it_released it then (false, it)
  else if 0 <? it_len it then (true, iterMove it (it_len it - 1))
  else (false, iterMove it (-1)).

Definition iterCurrent (it : Iterator) : option (bytes * bytes) :=
  if it_released it then None
  else if (0 <=? it_pos it) then it_records it !! Z.to_nat (it_pos it)
  else None.

(** [Key] and [Value] are nil where the cursor is not on a record. *)
Definition iterKey (it : Iterator) : bytes :=
  match iterCurrent it with Some kv => kv.1 | None => [] end.

Definition iterValue (it : Iterator) : bytes :=
  match iterCurrent it with Some kv => kv.2 | None => [] end.

Definition iterRelease (it : Iterator) : Iterator :=
  {| it_records := it_records it; it_pos := it_pos it; it_released := true |}.

(** ** The backend: transactions, reads and removal *)

(** [LevelDBBackend]: [DB] is the one root engine of the world, [core] is
    what the operations go through. *)
Record LevelDBBackend := { core : LevelDBCore }.

(** [Init] with the memory scheme: a fresh engine with an empty keyspace;
    [DB] and [core] are both that engine. *)
Definition Init : World * LevelDBBackend :=
  ({| db := ∅; transactions := [] |}, {| core := CoreDB |}).

Definition OpenTransaction (w : World) (st : LevelDBBackend)
  : option LevelDBBackend * option error * World :=
  match core st with
  | CoreTransaction _ => (None, Some ErrAlreadyTransaction, w)
  | CoreDB =>
      let '(transaction, err, w') := dbOpenTransaction w in
      if is_err err then (None, err, w')
      else (Some {| core := CoreTransaction transaction |}, None, w')
  end.

Definition Discard (w : World) (st : LevelDBBackend) : option error * World :=
  match core st with
  | CoreDB => (Some ErrNotTransaction, w)
  | CoreTransaction ts => (None, trDiscard w ts)
  end.

Definition Commit (w : World) (st : LevelDBBackend) : option error * World :=
  match core st with
  | CoreDB => (Some ErrNotTransaction, w)
  | CoreTransaction ts => trCommit w ts
  end.

Definition Has (w : World) (st : LevelDBBackend) (k : string)
  : bool * option error :=
  coreHas w (core st) (makeKey k).

Definition GetRaw (w : World) (st : LevelDBBackend) (k : string)
  : bytes * option error :=
  let '(exists_, err) := Has w st k in
  if negb exists_ || is_err err then
    ([], if negb exists_ then Some (ErrKeyNotExists k) else err)
  else coreGet w (core st) (makeKey k).

Definition Remove (w : World) (st : LevelDBBackend) (k : string)
  : option error * World :=
  let '(exists_, err) := Has w st k in
  if negb exists_ || is_err err then
    (if negb exists_ then Some (ErrKeyNotExists k) else err, w)
  else coreDelete w (core st) (makeKey k).

(** ** The backend: iteration *)

(** [IterItem]: the sequence number, and the key and the value the cursor
    shows when [next] returns. *)
Module IterItem.
Record t := { N : Z; Key : bytes; Value : bytes }.
(** [IterItem{}] *)
Definition zero : t := {| N := 0; Key := []; Value := [] |}.
End IterItem.

(** [n++] on an [int64]. *)
Definition int64_incr (n : Z) : Z := (n + 1 + 2 ^ 63) mod 2 ^ 64 - 2 ^ 63.

(** [funcNext] is [iter.Prev] or [iter.Next]. *)
Inductive FuncNext := IterPrev | IterNext.

Definition callFuncNext (f : FuncNext) (it : Iterator) : bool * Iterator :=
  match f with
  | IterPrev => iterPrev it
  | IterNext => iterNext it
  end.

(** The pair of closures [GetIterator] returns, as the state the two
    share. [NoClosures] is the pair of the early return: they capture
    nothing, [iter] records what became of the cursor. *)
Inductive Closures :=
| NoClosures (iter : Iterator)
| IterClosures (iter : Iterator) (funcNext : FuncNext) (hasUnsent : bool) (n : Z).

Definition cursor (c : Closures) : Iterator :=
  match c with
  | NoClosures iter => iter
  | IterClosures iter _ _ _ => iter
  end.

Definition GetIterator (w : World) (st : LevelDBBackend) (prefix : string)
  (reverse : bool) : Closures :=
  let dbRange :=
    if (0 <? String.length prefix)%nat then Some (BytesPrefix (makeKey prefix))
    else None in
  let iter := coreNewIterator w (core st) dbRange in
  if reverse then
    let '(ok, iter) := iterLast iter in
    if negb ok then NoClosures (iterRelease iter)
    else IterClosures iter IterPrev true 0
  else IterClosures iter IterNext false 0.

(** The first closure. *)
Definition next (c : Closures) : IterItem.t * bool * Closures :=
  match c with
  | NoClosures _ => (IterItem.zero, false, c)
  | IterClosures iter funcNext hasUnsent n =>
      if hasUnsent then
        ({| IterItem.N := n; IterItem.Key := iterKey iter;
            IterItem.Value := iterValue iter |}, true,
         IterClosures iter funcNext false n)
      else
        let '(ok, iter) := callFuncNext funcNext iter in
        if negb ok then
          (IterItem.zero, false, IterClosures (iterRelease iter) funcNext false n)
        else
          let n := int64_incr n in
          ({| IterItem.N := n; IterItem.Key := iterKey iter;
              IterItem.Value := iterValue iter |}, true,
           IterClosures iter funcNext false n)
  end.

(** The second closure. *)
Definition release (c : Closures) : Closures :=
  match c with
  | NoClosures _ => c
  | IterClosures iter funcNext hasUnsent n =>
      IterClosures (iterRelease iter) funcNext hasUnsent n
  end.

(** Calling [next] until it reports the end, at most [fuel] times: the
    items it returned, whether the end was reported, and the closures
    after the last call. *)
Fixpoint drain (fuel : nat) (c : Closures)
  : list IterItem.t * bool * Closures :=
  match fuel with
  | O => ([], false, c)
  | S fuel' =>
      let '(item, hasMore, c') := next c in
      if hasMore then
        let '(items, done, c'') := drain fuel' c' in (item :: items, done, c'')
      else ([], true, c')
  end.

(** The closures after [i] calls of [next]. *)
Definition after_calls (i : nat) (c : Closures) : Closures :=
  Nat.iter i (fun c => (next c).2) c.

(** Records numbered from [n] on, each with the counter incremented
    first. *)
Fixpoint numbered (n : Z) (recs : list (bytes * bytes)) : list IterItem.t :=
  match recs with
  | [] => []
  | kv :: recs' =>
      let n := int64_incr n in
      {| IterItem.N := n; IterItem.Key := kv.1; IterItem.Value := kv.2 |}
        :: numbered n recs'
  end.

(** The items of a whole session over the records [recs] of the range:
    forward the records numbered from 0 on; backward the last record under
    the number 0, then the others numbered from 0 on. *)
Definition session_items (backward : bool) (recs : list (bytes * bytes))
  : list IterItem.t :=
  if backward then
    match reverse recs with
    | [] => []
    | kv :: recs' =>
        {| IterItem.N := 0; IterItem.Key := kv.1; IterItem.Value := kv.2 |}
          :: numbered 0 recs'
    end
  else numbered 0 recs.

(** [yields c items]: successive calls of [next] return the [items] with
    [true], the cursor staying unreleased, and then the zero item with
    [false], which releases the cursor and is what every later call
    returns. *)
Fixpoint yields (c : Closures) (items : list IterItem.t) : Prop :=
  match items with
  | [] =>
      exists c', next c = (IterItem.zero, false, c')
        /\ it_released (cursor c') = true
        /\ next c' = (IterItem.zero, false, c')
  | item :: items' =>
      it_released (cursor c) = false
      /\ exists c', next c = (item, true, c')
           /\ it_released (cursor c') = false
           /\ yields c' items'
  end.

(** A cursor over [recs] at [pos], not released, and released. *)
Definition cursor_at (recs : list (bytes * bytes)) (pos : Z) : Iterator :=
  {| it_records := recs; it_pos := pos; it_released := false |}.

Definition cursor_released (recs : list (bytes * bytes)) (pos : Z) : Iterator :=
  {| it_records := recs; it_pos := pos; it_released := true |}.

(** A caller's use of the two closures, in any order: the items the calls
    of [next] returned with [true]. *)
Inductive Call := CallNext | CallRelease.

Fixpoint run (calls : list Call) (c : Closures) : list IterItem.t :=
  match calls with
  | [] => []
  | CallNext :: calls' =>
      let '(item, hasMore, c') := next c in
      if hasMore then item :: run calls' c' else run calls' c'
  | CallRelease :: calls' => run calls' (release c)
  end.

(** How many more times [funcNext] can succeed. *)
Definition room (it : Iterator) (f : FuncNext) : Z :=
  if it_released it then 0
  else
    match f with
    | IterNext => it_len it - 1 - it_pos it
    | IterPrev => it_pos it
    end.

(** The counter is not negative and cannot pass [bound]. *)
Definition counter_bounded (bound : Z) (c : Closures) : Prop :=
  match c with
  | NoClosures _ => True
  | IterClosures it f _ n => 0 <= n /\ 0 <= room it f /\ n + room it f <= bound
  end.

(** The least number the next item can carry. *)
Definition next_number (c : Closures) : Z :=
  match c with
  | NoClosures _ => 0
  | IterClosures _ _ hasUnsent n => if hasUnsent then n else n + 1
  end.

(** The closures have nothing pending to send: the pair of the early
    return, whose cursor is released, or a pair whose [hasUnsent] is
    false. *)
Definition nothing_unsent (c : Closures) : Prop :=
  match c with
  | NoClosures it => it_released it = true
  | IterClosures _ _ hasUnsent _ => hasUnsent = false
  end.

(** ** Values and their encodings

    [Any] is [interface{}]. The encoders and the decoder are not part of
    the backend and are taken as parameters: [asSerializable v] is the
    type assertion [v.(sebakcommon.Serializable)] together with what
    [Serialize()] returns, [EncodeJSONValue] is
    [sebakcommon.EncodeJSONValue], [Unmarshal b i] is what
    [json.Unmarshal(b, &i)] leaves in the target and returns, and
    [boxItem k v] is [Item{Key: k, Value: v}] passed as an [interface{}]. *)
Class Codec := {
  Any : Type;
  asSerializable : Any -> option (bytes * option string);
  EncodeJSONValue : Any -> bytes * option string;
  Unmarshal : bytes -> Any -> Any * option string;
  boxItem : string -> Any -> Any
}.

Section Backend.
Context `{Codec}.

Record Item := { Key : string; Value : Any }.

Definition encode_err (err : option string) : option error :=
  option_map ErrEncode err.

Definition decode_err (err : option string) : option error :=
  option_map ErrDecode err.

Definition Get (w : World) (st : LevelDBBackend) (k : string) (i : Any)
  : Any * option error :=
  let '(b, err) := GetRaw w st k in
  if is_err err then (i, err)
  else
    let '(i, err) := Unmarshal b i in
    if is_err err then (i, decode_err err) else (i, None).

Definition New (w : World) (st : LevelDBBackend) (k : string) (v : Any)
  : option error * World :=
  let '(encoded, err) :=
    match asSerializable v with
    | Some serialized => serialized
    | None => EncodeJSONValue v
    end in
  if is_err err then (encode_err err, w)
  else
    let '(exists_, err) := Has w st k in
    if exists_ || is_err err then
      (if exists_ then Some (ErrKeyAlreadyExists k) else err, w)
    else corePut w (core st) (makeKey k) encoded.

(** What the encoding step of [New] yields for [v]. *)
Definition New_encoded (v : Any) : bytes * option string :=
  match asSerializable v with
  | Some serialized => serialized
  | None => EncodeJSONValue v
  end.

(** The first loop of [News]: [Some err] where it returns. *)
Fixpoint News_check (w : World) (st : LevelDBBackend) (vs : list Item)
  : option error :=
  match vs with
  | [] => None
  | v :: vs' =>
      let '(exists_, err) := Has w st (Key v) in
      if exists_ || is_err err then
        (if exists_ then Some (ErrFoundExistingKey (Key v)) else err)
      else News_check w st vs'
  end.

(** What the encoding step of [News] and of [Sets] yields for an item:
    the item itself goes to the generic encoder. *)
Definition item_encoded (v : Item) : bytes * option string :=
  EncodeJSONValue (boxItem (Key v) (Value v)).

(** The batch of a list of items that all encode. *)
Definition batch_of (vs : list Item) : Batch :=
  map (fun v => (makeKey (Key v), (item_encoded v).1)) vs.

(** The second loop of [News] and of [Sets]: the batch built so far, and
    the error where it returns. *)
Fixpoint encode_items (vs : list Item) (batch : Batch) : Batch * option error :=
  match vs with
  | [] => (batch, None)
  | v :: vs' =>
      let '(encoded, err) := EncodeJSONValue (boxItem (Key v) (Value v)) in
      if is_err err then (batch, encode_err err)
      else encode_items vs' (batchPut batch (makeKey (Key v)) encoded)
  end.

Definition News (w : World) (st : LevelDBBackend) (vs : list Item)
  : option error * World :=
  if (length vs <? 1)%nat then (Some ErrEmptyValues, w)
  else
    match News_check w st vs with
    | Some err => (Some err, w)
    | None =>
        let '(batch, err) := encode_items vs [] in
        if is_err err then (err, w)
        else coreWrite w (core st) batch
    end.

Definition Set_ (w : World) (st : LevelDBBackend) (k : string) (v : Any)
  : option error * World :=
  let '(encoded, err) := EncodeJSONValue v in
  if is_err err then (encode_err err, w)
  else
    let '(exists_, err) := Has w st k in
    if negb exists_ || is_err err then
      (if negb exists_ then Some (ErrKeyNotExists k) else err, w)
    else corePut w (core st) (makeKey k) encoded.

(** The first loop of [Sets]: [Some err] where it returns. *)
Fixpoint Sets_check (w : World) (st : LevelDBBackend) (vs : list Item)
  : option error :=
  match vs with
  | [] => None
  | v :: vs' =>
      let '(exists_, err) := Has w st (Key v) in
      if negb exists_ || is_err err then
        (if negb exists_ then Some (ErrNotFoundKey (Key v)) else err)
      else Sets_check w st vs'
  end.

Definition Sets (w : World) (st : LevelDBBackend) (vs : list Item)
  : option error * World :=
  if (length vs <? 1)%nat then (Some ErrEmptyValues, w)
  else
    match Sets_check w st vs with
    | Some err => (Some err, w)
    | None =>
        let '(batch, err) := encode_items vs [] in
        if is_err err then (err, w)
        else coreWrite w (core st) batch
    end.

(** [New] for each pair in turn, up to the first error. *)
Fixpoint New_all (w : World) (st : LevelDBBackend) (kvs : list (string * Any))
  : option error * World :=
  match kvs with
  | [] => (None, w)
  | (k, v) :: kvs' =>
      let '(err, w') := New w st k v in
      if is_err err then (err, w') else New_all w' st kvs'
  end.

End Backend.

(** ** A caller's writes

    The writing operations of the backend as values, to speak of any
    sequence of them issued through one handle. *)
Section Operations.
Context `{Codec}.

Inductive Op :=
| OpNew (k : string) (v : Any)
| OpSet (k : string) (v : Any)
| OpRemove (k : string)
| OpNews (vs : list Item)
| OpSets (vs : list Item).

Definition exec (w : World) (st : LevelDBBackend) (op : Op)
  : option error * World :=
  match op with
  | OpNew k v => New w st k v
  | OpSet k v => Set_ w st k v
  | OpRemove k => Remove w st k
  | OpNews vs => News w st vs
  | OpSets vs => Sets w st vs
  end.

(** The operations in turn, whatever each returns. *)
Fixpoint exec_all (w : World) (st : LevelDBBackend) (ops : list Op) : World :=
  match ops with
  | [] => w
  | op :: ops' => exec_all (exec w st op).2 st ops'
  end.

End Operations.

(** ** A codec to run the backend on

    A few Go values and what [encoding/json] does with them: an [int] is
    its decimal numeral, a channel is refused by the encoder, an [Item] is
    the object of its two fields (keys here hold no character that JSON
    escapes), and [GoSerializable b err] is a value of a struct type
    without exported fields whose [Serialize()] returns [(b, err)]. The
    decoder fills an [int] target from a numeral and refuses the rest. *)
Module Sample.

Inductive GoValue :=
| GoInt (z : Z)
| GoChan
| GoItem (k : string) (v : GoValue)
| GoSerializable (b : bytes) (err : option string).

Definition numeral (z : Z) : bytes :=
  list_byte_of_string (DecimalString.NilZero.string_of_int (Z.to_int z)).

Definition parse_numeral (b : bytes) : option Z :=
  match DecimalString.NilZero.int_of_string (string_of_list_byte b) with
  | Some d =>
      let z := Z.of_int d in
      if decide (numeral z = b) then Some z else None
  | None => None
  end.

Definition quoted (s : string) : bytes :=
  [x22] ++ list_byte_of_string s ++ [x22].

Fixpoint marshal (v : GoValue) : bytes * option string :=
  match v with
  | GoInt z => (numeral z, None)
  | GoChan => ([], Some "json: unsupported type: chan int"%string)
  | GoItem k v =>
      let '(b, err) := marshal v in
      if is_err err then ([], err)
      else (list_byte_of_string "{" ++ quoted "Key" ++ list_byte_of_string ":"
            ++ quoted k ++ list_byte_of_string "," ++ quoted "Value"
            ++ list_byte_of_string ":" ++ b ++ list_byte_of_string "}", None)
  | GoSerializable _ _ => (list_byte_of_string "{}", None)
  end.

Definition unmarshal (b : bytes) (i : GoValue) : GoValue * option string :=
  match i with
  | GoInt _ =>
      match parse_numeral b with
      | Some z => (GoInt z, None)
      | None => (i, Some "json: cannot unmarshal into Go value of type int"%string)
      end
  | _ => (i, Some "json: Unmarshal(unsupported target)"%string)
  end.

#[export] Instance codec : Codec := {|
  Any := GoValue;
  asSerializable v :=
    match v with
    | GoSerializable b err => Some (b, err)
    | _ => None
    end;
  EncodeJSONValue := marshal;
  Unmarshal := unmarshal;
  boxItem := GoItem
|}.

(** Worlds to run on: an engine holding key [k], and one holding three
    items written by [News]. *)
Definition item (k : string) (z : Z) : Item := {| Key := k; Value := GoInt z |}.

Definition with_k : World := (New Init.1 Init.2 "k" (GoInt 1)).2.

Definition users : World :=
  (News Init.1 Init.2
     [item "user:1" 1; item "user:2" 2; item "other:1" 3]).2.

(** An engine whose one transaction was opened and then discarded, and
    the handle of that transaction. *)
Definition tx0 : LevelDBBackend := {| core := CoreTransaction 0 |}.

Definition discarded : World :=
  (Discard (OpenTransaction Init.1 Init.2).2 tx0).2.

End Sample.

(** ** A codec with a struct target

    [Empty] is [struct{}{}] and [AnItem k v] is an [Item] (keys here hold
    no character that JSON escapes). [encoding/json] writes the first as
    the empty object and the second as the object of its two fields, and
    it fills a [struct{}] target from any object, skipping the members
    the target has no field for. The decoder below takes a text between
    braces for an object: it is run on the encoder's outputs. No value
    exposes [Serialize]. *)
Module Structs.

Inductive GoValue :=
| Empty
| AnItem (k : string) (v : GoValue).

Fixpoint marshal (v : GoValue) : bytes :=
  match v with
  | Empty => list_byte_of_string "{}"
  | AnItem k v =>
      list_byte_of_string "{" ++ Sample.quoted "Key" ++ list_byte_of_string ":"
      ++ Sample.quoted k ++ list_byte_of_string "," ++ Sample.quoted "Value"
      ++ list_byte_of_string ":" ++ marshal v ++ list_byte_of_string "}"
  end.

Definition object_text (b : bytes) : bool :=
  match b with
  | x7b :: _ => bool_decide (last b = Some x7d)
  | _ => false
  end.

Definition unmarshal (b : bytes) (i : GoValue) : GoValue * option string :=
  match i with
  | Empty =>
      if object_text b then (Empty, None)
      else (i, Some "json: cannot unmarshal into Go value of type struct {}"%string)
  | AnItem _ _ => (i, Some "json: Unmarshal(unsupported target)"%string)
  end.

Definition codec : Codec := {|
  Any := GoValue;
  asSerializable _ := None;
  EncodeJSONValue v := (marshal v, None);
  Unmarshal := unmarshal;
  boxItem := AnItem
|}.

(** The item [{k, struct{}{}}], the engine after [News] wrote it, and
    the engine after [New] wrote its value. *)
Definition empty_item : @Item codec := @Build_Item codec "k" Empty.

Definition after_News : World := (@News codec Init.1 Init.2 [empty_item]).2.

Definition after_New : World := (@New codec Init.1 Init.2 "k" Empty).2.

End Structs.


(** * Properties *)

(** ** Presence of keys *)

Lemma Has_view w st k s :
  view w (core st) = Some s ->
  Has w st k = (bool_decide (is_Some (s !! makeKey k)), None).
Proof. intros Hs. unfold Has, coreHas. by rewrite Hs. Qed.

Lemma Has_true_inv w st k :
  Has w st k = (true, None) ->
  exists s, view w (core st) = Some s /\ is_Some (s !! makeKey k).
Proof.
  unfold Has, coreHas. destruct (view w (core st)) as [s|]; [|discriminate].
  intros [= Hk]. exists s. split; [done|]. by apply bool_decide_eq_true in Hk.
Qed.

Lemma Has_false_inv w st k :
  Has w st k = (false, None) ->
  exists s, view w (core st) = Some s /\ s !! makeKey k = None.
Proof.
  unfold Has, coreHas. destruct (view w (core st)) as [s|]; [|discriminate].
  intros [= Hk]. exists s. split; [done|].
  apply bool_decide_eq_false in Hk. by apply eq_None_not_Some.
Qed.

Lemma view_set_view w c s s' :
  view w c = Some s -> view (set_view w c s') c = Some s'.
Proof.
  destruct c as [|id]; simpl; [done|].
  destruct (transactions w !! id) as [tr|] eqn:Htr; [|discriminate].
  intros _. rewrite list_lookup_insert_eq; [done|].
  by eapply lookup_lt_Some.
Qed.

Lemma GetRaw_view w st k s :
  view w (core st) = Some s ->
  GetRaw w st k =
    match s !! makeKey k with
    | Some value => (value, None)
    | None => ([], Some (ErrKeyNotExists k))
    end.
Proof.
  intros Hs. unfold GetRaw. rewrite (Has_view _ _ _ _ Hs).
  unfold coreGet. rewrite Hs.
  destruct (s !! makeKey k) as [value|] eqn:Hk.
  - rewrite bool_decide_eq_true_2 by eauto. done.
  - rewrite bool_decide_eq_false_2; [done|]. by intros [? ?].
Qed.

Lemma makeKey_inj k1 k2 : makeKey k1 = makeKey k2 -> k1 = k2.
Proof.
  unfold makeKey. intros Hk.
  rewrite <- (string_of_list_byte_of_string k1), Hk.
  apply string_of_list_byte_of_string.
Qed.

(** ** Transactions *)

(** C8. Handle roles are validated: [OpenTransaction] on a handle that is
    a transaction fails with the "already a transaction" error
    (NoNestedTransaction) and returns no handle; [Discard] and [Commit] on
    a handle that is not a transaction fail with the "not a transaction"
    error (NotATransaction); none of the three changes the world. *)
Theorem handle_role_validation (w : World) (id : nat) :
  OpenTransaction w {| core := CoreTransaction id |}
    = (None, Some ErrAlreadyTransaction, w)
  /\ kind ErrAlreadyTransaction = NoNestedTransaction
  /\ Discard w {| core := CoreDB |} = (Some ErrNotTransaction, w)
  /\ Commit w {| core := CoreDB |} = (Some ErrNotTransaction, w)
  /\ kind ErrNotTransaction = NotATransaction.
Proof. repeat split. Qed.

Lemma trDiscard_closed w id tr :
  transactions (trDiscard w id) !! id = Some tr -> tr_closed tr = true.
Proof.
  unfold trDiscard.
  destruct (transactions w !! id) as [tr0|] eqn:Htr.
  - destruct (tr_closed tr0) eqn:Hc.
    + rewrite Htr. by intros [= <-].
    + simpl. rewrite list_lookup_insert_eq by (by eapply lookup_lt_Some).
      by intros [= <-].
  - by rewrite Htr.
Qed.

Lemma trCommit_closed w id w' tr :
  trCommit w id = (None, w') ->
  transactions w' !! id = Some tr -> tr_closed tr = true.
Proof.
  unfold trCommit.
  destruct (transactions w !! id) as [tr0|] eqn:Htr; [|discriminate].
  destruct (tr_closed tr0); [discriminate|].
  intros [= <-]. simpl.
  rewrite list_lookup_insert_eq by (by eapply lookup_lt_Some).
  by intros [= <-].
Qed.

Lemma closed_Commit_Discard w id :
  (forall tr, transactions w !! id = Some tr -> tr_closed tr = true) ->
  Commit w {| core := CoreTransaction id |}
    = (Some (ErrLevelDB ErrTransactionDone), w)
  /\ Discard w {| core := CoreTransaction id |} = (None, w).
Proof.
  intros Hclosed. unfold Commit, Discard, trCommit, trDiscard. simpl.
  destruct (transactions w !! id) as [tr|]; [|done].
  by rewrite (Hclosed tr eq_refl).
Qed.

(** C3, the claim fails: on a transaction handle [Discard] may be called
    twice, and after [Commit], and returns no error each time. *)
Lemma Discard_twice_is_no_error :
  let tx := {| core := CoreTransaction 0 |} in
  let w1 := (OpenTransaction Init.1 Init.2).2 in
  OpenTransaction Init.1 Init.2 = (Some tx, None, w1)
  /\ (Discard w1 tx).1 = None
  /\ (Discard (Discard w1 tx).2 tx).1 = None
  /\ (Commit w1 tx).1 = None
  /\ (Discard (Commit w1 tx).2 tx).1 = None.
Proof. repeat split. Qed.

(** C3, as the code has it: once [Commit] or [Discard] has returned
    without error on a transaction handle, a further [Commit] is an error
    (the engine reports the transaction as closed) and changes nothing;
    a further [Discard] returns no error and changes nothing. [Discard]
    on a transaction handle never returns an error. *)
Theorem transaction_terminated_once (w w' : World) (id : nat) :
  let st := {| core := CoreTransaction id |} in
  Commit w st = (None, w') \/ Discard w st = (None, w') ->
  Commit w' st = (Some (ErrLevelDB ErrTransactionDone), w')
  /\ Discard w' st = (None, w')
  /\ (forall w0, (Discard w0 st).1 = None).
Proof.
  intros st Hfirst.
  assert (Hclosed : forall tr,
    transactions w' !! id = Some tr -> tr_closed tr = true).
  { destruct Hfirst as [Hc|Hd].
    - intros tr. by apply (trCommit_closed w id w').
    - injection Hd as <-. intros tr. apply trDiscard_closed. }
  destruct (closed_Commit_Discard w' id Hclosed) as [Hc Hd].
  repeat split; done.
Qed.

Lemma transaction_terminated_once_witness :
  let st := {| core := CoreTransaction 0 |} in
  let w := (OpenTransaction Init.1 Init.2).2 in
  let w' := (Commit w st).2 in
  Commit w' st = (Some (ErrLevelDB ErrTransactionDone), w')
  /\ Discard w' st = (None, w')
  /\ (forall w0, (Discard w0 st).1 = None).
Proof.
  intros st w w'.
  apply (transaction_terminated_once w w' 0). left. reflexivity.
Defined.

(** ** Single-key writes *)

Section SingleKey.
Context `{Codec}.

Lemma corePut_view w c key value s :
  view w c = Some s ->
  corePut w c key value = (None, set_view w c (<[key := value]> s)).
Proof. intros Hs. unfold corePut. by rewrite Hs. Qed.

Lemma GetRaw_after_put w st k k' value s :
  view w (core st) = Some s ->
  GetRaw (set_view w (core st) (<[makeKey k := value]> s)) st k' =
    if decide (k = k') then (value, None) else GetRaw w st k'.
Proof.
  intros Hs.
  rewrite (GetRaw_view _ _ _ _ (view_set_view _ _ _ _ Hs)).
  rewrite (GetRaw_view _ _ _ _ Hs).
  destruct (decide (k = k')) as [->|Hne].
  - by rewrite lookup_insert_eq.
  - rewrite lookup_insert_ne; [done|]. intros Hk. by apply makeKey_inj in Hk.
Qed.

Lemma New_encode_error w st k v b msg :
  New_encoded v = (b, Some msg) -> New w st k v = (Some (ErrEncode msg), w).
Proof. unfold New, New_encoded. by intros ->. Qed.

Lemma New_present w st k v b :
  New_encoded v = (b, None) -> Has w st k = (true, None) ->
  New w st k v = (Some (ErrKeyAlreadyExists k), w).
Proof. unfold New, New_encoded. by intros -> ->. Qed.

Lemma New_absent w st k v b :
  New_encoded v = (b, None) -> Has w st k = (false, None) ->
  exists s, view w (core st) = Some s
    /\ New w st k v = (None, set_view w (core st) (<[makeKey k := b]> s)).
Proof.
  intros Hv Hk. destruct (Has_false_inv _ _ _ Hk) as (s & Hs & _).
  exists s. split; [done|].
  unfold New. fold (New_encoded v). rewrite Hv, Hk. simpl.
  by apply corePut_view.
Qed.

(** C2, as the code has it: [New] encodes first, with [Serialize] where
    the value exposes it and with the generic encoder otherwise, and a
    value that fails to encode makes [New] return the encoder's error,
    present key or not. For a value that encodes: on a present key [New]
    fails with the "already exists" error (AlreadyExists); on an absent
    key it writes the encoded bytes under that key and no other. The
    world is unchanged whenever [New] fails. *)
Theorem New_encodes_then_checks (w : World) (st : LevelDBBackend)
    (k : string) (v : Any) :
  New_encoded v
    = match asSerializable v with
      | Some serialized => serialized
      | None => EncodeJSONValue v
      end
  /\ (forall b msg, New_encoded v = (b, Some msg) ->
        New w st k v = (Some (ErrEncode msg), w))
  /\ (forall b, New_encoded v = (b, None) -> Has w st k = (true, None) ->
        New w st k v = (Some (ErrKeyAlreadyExists k), w)
        /\ kind (ErrKeyAlreadyExists k) = AlreadyExists)
  /\ (forall b, New_encoded v = (b, None) -> Has w st k = (false, None) ->
        exists w', New w st k v = (None, w')
          /\ GetRaw w' st k = (b, None)
          /\ forall k', k' <> k -> GetRaw w' st k' = GetRaw w st k').
Proof.
  split; [done|]. split; [|split].
  - intros b msg. apply New_encode_error.
  - intros b Hv Hk. split; [|done]. by eapply New_present.
  - intros b Hv Hk.
    destruct (New_absent _ _ _ _ _ Hv Hk) as (s & Hs & HNew).
    eexists. split; [exact HNew|]. split.
    + rewrite (GetRaw_after_put _ _ _ _ _ _ Hs). by rewrite decide_True.
    + intros k' Hne. rewrite (GetRaw_after_put _ _ _ _ _ _ Hs).
      by rewrite decide_False.
Qed.

Lemma Set_encode_error w st k v b msg :
  EncodeJSONValue v = (b, Some msg) -> Set_ w st k v = (Some (ErrEncode msg), w).
Proof. unfold Set_. by intros ->. Qed.

Lemma Set_absent w st k v b :
  EncodeJSONValue v = (b, None) -> Has w st k = (false, None) ->
  Set_ w st k v = (Some (ErrKeyNotExists k), w).
Proof. unfold Set_. by intros -> ->. Qed.

Lemma Set_present w st k v b :
  EncodeJSONValue v = (b, None) -> Has w st k = (true, None) ->
  exists s, view w (core st) = Some s
    /\ Set_ w st k v = (None, set_view w (core st) (<[makeKey k := b]> s)).
Proof.
  intros Hv Hk. destruct (Has_true_inv _ _ _ Hk) as (s & Hs & _).
  exists s. split; [done|].
  unfold Set_. rewrite Hv, Hk. simpl. by apply corePut_view.
Qed.

(** C9, as the code has it: [Set] encodes first, always with the generic
    encoder, and a value that fails to encode makes [Set] return the
    encoder's error, absent key or not. For a value that encodes: on an
    absent key [Set] fails with the "does not exist" error (NotFound); on
    a present key it overwrites the bytes stored under that key and
    touches no other. The world is unchanged whenever [Set] fails. *)
Theorem Set_encodes_then_checks (w : World) (st : LevelDBBackend)
    (k : string) (v : Any) :
  (forall b msg, EncodeJSONValue v = (b, Some msg) ->
     Set_ w st k v = (Some (ErrEncode msg), w))
  /\ (forall b, EncodeJSONValue v = (b, None) -> Has w st k = (false, None) ->
        Set_ w st k v = (Some (ErrKeyNotExists k), w)
        /\ kind (ErrKeyNotExists k) = NotFound)
  /\ (forall b, EncodeJSONValue v = (b, None) -> Has w st k = (true, None) ->
        exists w', Set_ w st k v = (None, w')
          /\ GetRaw w' st k = (b, None)
          /\ forall k', k' <> k -> GetRaw w' st k' = GetRaw w st k').
Proof.
  split; [|split].
  - intros b msg. apply Set_encode_error.
  - intros b Hv Hk. split; [|done]. by eapply Set_absent.
  - intros b Hv Hk.
    destruct (Set_present _ _ _ _ _ Hv Hk) as (s & Hs & HSet).
    eexists. split; [exact HSet|]. split.
    + rewrite (GetRaw_after_put _ _ _ _ _ _ Hs). by rewrite decide_True.
    + intros k' Hne. rewrite (GetRaw_after_put _ _ _ _ _ _ Hs).
      by rewrite decide_False.
Qed.

End SingleKey.

(** ** Batches *)

Lemma apply_batch_snoc (batch : Batch) (kv : bytes * bytes) (s : Store) :
  apply_batch (batch ++ [kv]) s = <[kv.1 := kv.2]> (apply_batch batch s).
Proof. unfold apply_batch. by rewrite foldl_app. Qed.

Lemma apply_batch_is_Some (batch : Batch) (s : Store) (key : bytes) :
  key ∈ batch.*1 -> is_Some (apply_batch batch s !! key).
Proof.
  induction batch as [|kv batch IH] using rev_ind.
  - intros Hin. by apply elem_of_nil in Hin.
  - rewrite fmap_app, elem_of_app, apply_batch_snoc. simpl.
    destruct (decide (kv.1 = key)) as [<-|Hne].
    + intros _. rewrite lookup_insert_eq. eauto.
    + rewrite lookup_insert_ne by done. rewrite list_elem_of_singleton.
      intros [Hin|Heq]; [by apply IH | by destruct Hne].
Qed.

Lemma apply_batch_last (batch : Batch) (s : Store) (i : nat) key value :
  batch !! i = Some (key, value) ->
  (forall j kv, (i < j)%nat -> batch !! j = Some kv -> kv.1 <> key) ->
  apply_batch batch s !! key = Some value.
Proof.
  revert i. induction batch as [|kv batch IH] using rev_ind; intros i Hi Hlater.
  - by rewrite lookup_nil in Hi.
  - rewrite apply_batch_snoc.
    destruct (decide (i = length batch)) as [->|Hne].
    + rewrite lookup_app_r, Nat.sub_diag in Hi by lia. injection Hi as ->.
      simpl. by rewrite lookup_insert_eq.
    + assert (i < length batch)%nat as Hlt.
      { apply lookup_lt_Some in Hi. rewrite length_app in Hi. simpl in Hi. lia. }
      rewrite lookup_app_l in Hi by done.
      rewrite lookup_insert_ne.
      * apply (IH i Hi). intros j kv' Hj Hkv'. apply (Hlater j kv' Hj).
        rewrite lookup_app_l; [done|]. by eapply lookup_lt_Some.
      * apply (Hlater (length batch) kv Hlt).
        by rewrite lookup_app_r, Nat.sub_diag by lia.
Qed.

Section Batches.
Context `{Codec}.

Lemma News_check_spec w st vs s :
  view w (core st) = Some s ->
  News_check w st vs =
    match list_find (fun v => is_Some (s !! makeKey (Key v))) vs with
    | Some (_, v) => Some (ErrFoundExistingKey (Key v))
    | None => None
    end.
Proof.
  intros Hs. induction vs as [|v vs IH]; [done|].
  cbn [News_check list_find]. rewrite (Has_view _ _ _ _ Hs).
  destruct (decide (is_Some (s !! makeKey (Key v)))) as [Hv|Hv].
  - by rewrite bool_decide_eq_true_2.
  - rewrite bool_decide_eq_false_2 by done. simpl. rewrite IH.
    by destruct (list_find _ vs) as [[? ?]|].
Qed.

Lemma Sets_check_spec w st vs s :
  view w (core st) = Some s ->
  Sets_check w st vs =
    match list_find (fun v => s !! makeKey (Key v) = None) vs with
    | Some (_, v) => Some (ErrNotFoundKey (Key v))
    | None => None
    end.
Proof.
  intros Hs. induction vs as [|v vs IH]; [done|].
  cbn [Sets_check list_find]. rewrite (Has_view _ _ _ _ Hs).
  destruct (decide (s !! makeKey (Key v) = None)) as [Hv|Hv].
  - rewrite bool_decide_eq_false_2; [done|]. rewrite Hv. by intros [? ?].
  - rewrite bool_decide_eq_true_2.
    + simpl. rewrite IH. by destruct (list_find _ vs) as [[? ?]|].
    + by destruct (s !! makeKey (Key v)); eauto.
Qed.

Lemma encode_items_ok vs batch :
  Forall (fun v => (item_encoded v).2 = None) vs ->
  encode_items vs batch = (batch ++ batch_of vs, None).
Proof.
  intros Hvs. revert batch.
  induction Hvs as [|v vs Hv _ IH]; intros batch; simpl.
  - by rewrite app_nil_r.
  - fold (item_encoded v). unfold batch_of in *.
    destruct (item_encoded v) as [encoded err]. simpl in *. subst err. simpl.
    rewrite IH. unfold batchPut. by rewrite <- app_assoc.
Qed.

Lemma encode_items_error vs batch :
  Exists (fun v => (item_encoded v).2 <> None) vs ->
  exists batch' msg, encode_items vs batch = (batch', Some (ErrEncode msg)).
Proof.
  intros Hvs. revert batch.
  induction Hvs as [v vs Hv|v vs _ IH]; intros batch; simpl;
    fold (item_encoded v); destruct (item_encoded v) as [encoded [msg|]];
    simpl in *; eauto; done.
Qed.

Lemma length_lt_1 {A} (l : list A) : l <> [] -> (length l <? 1)%nat = false.
Proof. destruct l; [done|]. intros _. by apply Nat.ltb_ge; simpl; lia. Qed.

Lemma News_empty w st : News w st [] = (Some ErrEmptyValues, w).
Proof. done. Qed.

Lemma Sets_empty w st : Sets w st [] = (Some ErrEmptyValues, w).
Proof. done. Qed.

Lemma News_existing w st vs s :
  view w (core st) = Some s ->
  Exists (fun v => is_Some (s !! makeKey (Key v))) vs ->
  exists v, v ∈ vs /\ is_Some (s !! makeKey (Key v))
    /\ News w st vs = (Some (ErrFoundExistingKey (Key v)), w).
Proof.
  intros Hs Hex. unfold News.
  rewrite length_lt_1 by (intros ->; by apply Exists_nil in Hex).
  rewrite (News_check_spec _ _ _ _ Hs).
  destruct (list_find _ vs) as [[i v]|] eqn:Hfind.
  - apply list_find_Some in Hfind as (Hi & Hv & _).
    exists v. split; [by eapply list_elem_of_lookup_2|]. done.
  - apply list_find_None in Hfind. apply Exists_exists in Hex as (v & Hin & Hv).
    rewrite Forall_forall in Hfind. by destruct (Hfind v Hin).
Qed.

Lemma Sets_missing w st vs s :
  view w (core st) = Some s ->
  Exists (fun v => s !! makeKey (Key v) = None) vs ->
  exists v, v ∈ vs /\ s !! makeKey (Key v) = None
    /\ Sets w st vs = (Some (ErrNotFoundKey (Key v)), w).
Proof.
  intros Hs Hex. unfold Sets.
  rewrite length_lt_1 by (intros ->; by apply Exists_nil in Hex).
  rewrite (Sets_check_spec _ _ _ _ Hs).
  destruct (list_find _ vs) as [[i v]|] eqn:Hfind.
  - apply list_find_Some in Hfind as (Hi & Hv & _).
    exists v. split; [by eapply list_elem_of_lookup_2|]. done.
  - apply list_find_None in Hfind. apply Exists_exists in Hex as (v & Hin & Hv).
    rewrite Forall_forall in Hfind. by destruct (Hfind v Hin).
Qed.

Lemma News_check_passes w st vs s :
  view w (core st) = Some s ->
  Forall (fun v => s !! makeKey (Key v) = None) vs ->
  News_check w st vs = None.
Proof.
  intros Hs Hvs. rewrite (News_check_spec _ _ _ _ Hs).
  destruct (list_find _ vs) as [[i v]|] eqn:Hfind; [|done].
  apply list_find_Some in Hfind as (Hi & Hv & _).
  rewrite Forall_forall in Hvs.
  rewrite (Hvs v) in Hv by (by eapply list_elem_of_lookup_2).
  by destruct Hv.
Qed.

Lemma Sets_check_passes w st vs s :
  view w (core st) = Some s ->
  Forall (fun v => is_Some (s !! makeKey (Key v))) vs ->
  Sets_check w st vs = None.
Proof.
  intros Hs Hvs. rewrite (Sets_check_spec _ _ _ _ Hs).
  destruct (list_find _ vs) as [[i v]|] eqn:Hfind; [|done].
  apply list_find_Some in Hfind as (Hi & Hv & _).
  rewrite Forall_forall in Hvs.
  destruct (Hvs v) as [? Hsome]; [by eapply list_elem_of_lookup_2|].
  by rewrite Hv in Hsome.
Qed.

Lemma coreWrite_view w c batch s :
  view w c = Some s ->
  coreWrite w c batch = (None, set_view w c (apply_batch batch s)).
Proof. intros Hs. unfold coreWrite. by rewrite Hs. Qed.

Lemma batch_keys_present w st vs s :
  view w (core st) = Some s ->
  Forall (fun v =>
    Has (set_view w (core st) (apply_batch (batch_of vs) s)) st (Key v)
      = (true, None)) vs.
Proof.
  intros Hs. apply Forall_forall. intros v Hv.
  rewrite (Has_view _ _ _ _ (view_set_view _ _ _ _ Hs)).
  rewrite bool_decide_eq_true_2; [done|].
  apply apply_batch_is_Some. unfold batch_of.
  rewrite <- list_fmap_compose.
  by apply (list_elem_of_fmap_2 (fun v => makeKey (Key v))).
Qed.

Lemma News_writes w st vs s :
  view w (core st) = Some s -> vs <> [] ->
  Forall (fun v => s !! makeKey (Key v) = None) vs ->
  Forall (fun v => (item_encoded v).2 = None) vs ->
  News w st vs = coreWrite w (core st) (batch_of vs).
Proof.
  intros Hs Hne Habsent Henc. unfold News.
  rewrite length_lt_1 by done.
  rewrite (News_check_passes _ _ _ _ Hs Habsent).
  by rewrite (encode_items_ok _ _ Henc).
Qed.

Lemma Sets_writes w st vs s :
  view w (core st) = Some s -> vs <> [] ->
  Forall (fun v => is_Some (s !! makeKey (Key v))) vs ->
  Forall (fun v => (item_encoded v).2 = None) vs ->
  Sets w st vs = coreWrite w (core st) (batch_of vs).
Proof.
  intros Hs Hne Hpresent Henc. unfold Sets.
  rewrite length_lt_1 by done.
  rewrite (Sets_check_passes _ _ _ _ Hs Hpresent).
  by rewrite (encode_items_ok _ _ Henc).
Qed.

Lemma News_encode_error w st vs s :
  view w (core st) = Some s -> vs <> [] ->
  Forall (fun v => s !! makeKey (Key v) = None) vs ->
  Exists (fun v => (item_encoded v).2 <> None) vs ->
  exists msg, News w st vs = (Some (ErrEncode msg), w).
Proof.
  intros Hs Hne Habsent Henc. unfold News.
  rewrite length_lt_1 by done.
  rewrite (News_check_passes _ _ _ _ Hs Habsent).
  destruct (encode_items_error _ [] Henc) as (batch & msg & ->). eauto.
Qed.

Lemma Sets_encode_error w st vs s :
  view w (core st) = Some s -> vs <> [] ->
  Forall (fun v => is_Some (s !! makeKey (Key v))) vs ->
  Exists (fun v => (item_encoded v).2 <> None) vs ->
  exists msg, Sets w st vs = (Some (ErrEncode msg), w).
Proof.
  intros Hs Hne Hpresent Henc. unfold Sets.
  rewrite length_lt_1 by done.
  rewrite (Sets_check_passes _ _ _ _ Hs Hpresent).
  destruct (encode_items_error _ [] Henc) as (batch & msg & ->). eauto.
Qed.

(** C1, as the code has it, for a handle whose keyspace is [s]. An empty
    list fails with the "empty values" error (EmptyBatch). A list with an
    item that fails the existence check (for [News] a present key, for
    [Sets] an absent one) fails with the "found existing key" error
    (AlreadyExists), respectively the "not found key" error (NotFound).
    When every check passes, the items are encoded: if one of them fails
    to encode the call fails with the encoder's error, and otherwise the
    call is one [Write] of the batch of all the items, after which every
    key of the list is present. The world is unchanged whenever the call
    fails. *)
Theorem batch_check_encode_write (w : World) (st : LevelDBBackend)
    (vs : list Item) (s : Store) :
  view w (core st) = Some s ->
  let written := set_view w (core st) (apply_batch (batch_of vs) s) in
  (News w st [] = (Some ErrEmptyValues, w)
   /\ Sets w st [] = (Some ErrEmptyValues, w)
   /\ kind ErrEmptyValues = EmptyBatch)
  /\ (Exists (fun v => is_Some (s !! makeKey (Key v))) vs ->
        exists v, v ∈ vs
          /\ News w st vs = (Some (ErrFoundExistingKey (Key v)), w)
          /\ kind (ErrFoundExistingKey (Key v)) = AlreadyExists)
  /\ (Exists (fun v => s !! makeKey (Key v) = None) vs ->
        exists v, v ∈ vs
          /\ Sets w st vs = (Some (ErrNotFoundKey (Key v)), w)
          /\ kind (ErrNotFoundKey (Key v)) = NotFound)
  /\ (vs <> [] -> Exists (fun v => (item_encoded v).2 <> None) vs ->
        (Forall (fun v => s !! makeKey (Key v) = None) vs ->
           exists msg, News w st vs = (Some (ErrEncode msg), w))
        /\ (Forall (fun v => is_Some (s !! makeKey (Key v))) vs ->
              exists msg, Sets w st vs = (Some (ErrEncode msg), w)))
  /\ (vs <> [] -> Forall (fun v => (item_encoded v).2 = None) vs ->
        coreWrite w (core st) (batch_of vs) = (None, written)
        /\ Forall (fun v => Has written st (Key v) = (true, None)) vs
        /\ (Forall (fun v => s !! makeKey (Key v) = None) vs ->
              News w st vs = coreWrite w (core st) (batch_of vs))
        /\ (Forall (fun v => is_Some (s !! makeKey (Key v))) vs ->
              Sets w st vs = coreWrite w (core st) (batch_of vs))).
Proof.
  intros Hs written. split; [done|]. split; [|split; [|split; [|]]].
  - intros Hex. destruct (News_existing _ _ _ _ Hs Hex) as (v & Hin & _ & HNews).
    by exists v.
  - intros Hex. destruct (Sets_missing _ _ _ _ Hs Hex) as (v & Hin & _ & HSets).
    by exists v.
  - intros Hne Henc. split; intros Hcheck.
    + by eapply News_encode_error.
    + by eapply Sets_encode_error.
  - intros Hne Henc. split; [by apply coreWrite_view|].
    split; [by apply batch_keys_present|].
    split; intros Hcheck.
    + by eapply News_writes.
    + by eapply Sets_writes.
Qed.

End Batches.

(** ** What is stored, and what reading it back gives *)

Section Encoding.
Context `{Codec}.

Lemma Get_GetRaw w st k target b :
  GetRaw w st k = (b, None) ->
  Get w st k target =
    let '(i, err) := Unmarshal b target in (i, decode_err err).
Proof.
  intros Hraw. unfold Get. rewrite Hraw. simpl.
  by destruct (Unmarshal b target) as [i [msg|]].
Qed.

Lemma New_success_inv w st k v w' :
  New w st k v = (None, w') ->
  exists b, New_encoded v = (b, None) /\ GetRaw w' st k = (b, None).
Proof.
  intros HNew. destruct (New_encoded v) as [b [msg|]] eqn:Hv.
  { by rewrite (New_encode_error _ _ _ _ _ _ Hv) in HNew. }
  exists b. split; [done|].
  destruct (Has w st k) as [[|] [e|]] eqn:Hk.
  - unfold New in HNew. fold (New_encoded v) in HNew.
    by rewrite Hv, Hk in HNew.
  - by rewrite (New_present _ _ _ _ _ Hv Hk) in HNew.
  - unfold New in HNew. fold (New_encoded v) in HNew.
    by rewrite Hv, Hk in HNew.
  - destruct (New_absent _ _ _ _ _ Hv Hk) as (s & Hs & HNew').
    rewrite HNew' in HNew. injection HNew as <-.
    rewrite (GetRaw_after_put _ _ _ _ _ _ Hs). by rewrite decide_True.
Qed.

(** C4. On an absent key, [New] followed by [Get] gives back the value,
    under the round-trip law of the encoding [New] applies to it: the
    encoding succeeds and the decoder, run on the encoded bytes with that
    target, returns an equivalent value. *)
Theorem New_then_Get_round_trip (w : World) (st : LevelDBBackend)
    (k : string) (v target : Any) (equiv : Any -> Any -> Prop) :
  Has w st k = (false, None) ->
  (exists b v', New_encoded v = (b, None)
     /\ Unmarshal b target = (v', None) /\ equiv v' v) ->
  exists w' v', New w st k v = (None, w')
    /\ Get w' st k target = (v', None) /\ equiv v' v.
Proof.
  intros Hk (b & v' & Hv & Hdecode & Hequiv).
  destruct (New_absent _ _ _ _ _ Hv Hk) as (s & Hs & HNew).
  eexists _, v'. split; [exact HNew|]. split; [|done].
  rewrite (Get_GetRaw _ _ _ _ b).
  - by rewrite Hdecode.
  - rewrite (GetRaw_after_put _ _ _ _ _ _ Hs). by rewrite decide_True.
Qed.

Lemma encode_items_success_inv vs batch batch' :
  encode_items vs batch = (batch', None) ->
  Forall (fun v => (item_encoded v).2 = None) vs.
Proof.
  intros Henc.
  destruct (decide (Forall (fun v => (item_encoded v).2 = None) vs))
    as [|Hno]; [done|].
  apply not_Forall_Exists in Hno; [|apply _].
  destruct (encode_items_error vs batch Hno) as (? & msg & Herr).
  by rewrite Herr in Henc.
Qed.

Lemma News_success_inv w st vs s w' :
  view w (core st) = Some s ->
  News w st vs = (None, w') ->
  Forall (fun v => (item_encoded v).2 = None) vs
  /\ w' = set_view w (core st) (apply_batch (batch_of vs) s).
Proof.
  intros Hs. unfold News.
  destruct (length vs <? 1)%nat; [discriminate|].
  destruct (News_check w st vs); [discriminate|].
  destruct (encode_items vs []) as [batch [e|]] eqn:Henc; [discriminate|].
  simpl. pose proof (encode_items_success_inv _ _ _ Henc) as Hvs.
  rewrite (encode_items_ok _ _ Hvs) in Henc. injection Henc as <-.
  rewrite (coreWrite_view _ _ _ _ Hs). by intros [= <-].
Qed.

Lemma Sets_success_inv w st vs s w' :
  view w (core st) = Some s ->
  Sets w st vs = (None, w') ->
  Forall (fun v => (item_encoded v).2 = None) vs
  /\ w' = set_view w (core st) (apply_batch (batch_of vs) s).
Proof.
  intros Hs. unfold Sets.
  destruct (length vs <? 1)%nat; [discriminate|].
  destruct (Sets_check w st vs); [discriminate|].
  destruct (encode_items vs []) as [batch [e|]] eqn:Henc; [discriminate|].
  simpl. pose proof (encode_items_success_inv _ _ _ Henc) as Hvs.
  rewrite (encode_items_ok _ _ Hvs) in Henc. injection Henc as <-.
  rewrite (coreWrite_view _ _ _ _ Hs). by intros [= <-].
Qed.

Lemma GetRaw_after_batch w st vs s i v :
  view w (core st) = Some s ->
  vs !! i = Some v ->
  (forall j v', (i < j)%nat -> vs !! j = Some v' -> Key v' <> Key v) ->
  GetRaw (set_view w (core st) (apply_batch (batch_of vs) s)) st (Key v)
    = ((item_encoded v).1, None).
Proof.
  intros Hs Hi Hlater.
  rewrite (GetRaw_view _ _ _ _ (view_set_view _ _ _ _ Hs)).
  rewrite (apply_batch_last _ _ i _ (item_encoded v).1); [done| |].
  - unfold batch_of. by rewrite list_lookup_fmap, Hi.
  - intros j kv Hj. unfold batch_of. rewrite list_lookup_fmap.
    destruct (vs !! j) as [v'|] eqn:Hv'; [|discriminate].
    intros [= <-] Hkey. simpl in Hkey.
    by apply (Hlater j v' Hj Hv'), makeKey_inj.
Qed.

(** C10, as the code has it, for a handle whose keyspace is [s] and an
    item [v] of the list (the last one with its key). A [News] or a
    [Sets] that succeeds leaves the world of one [Write] of the whole
    batch, and does succeed when the items encode and the keys are all
    absent, respectively all present. In that world the bytes stored
    under the key of [v] are the generic encoding of the whole item, and
    [Get] returns what the decoder makes of those bytes with the target
    it is given. For a value without [Serialize], where the encoding of
    the item frames the encoding of the value (a non-empty header, the
    encoding of the value, a closing), [New] stores the encoding of the
    value alone, other bytes than the batch call stores. *)
Theorem batch_stores_whole_item (w : World) (st : LevelDBBackend)
    (vs : list Item) (s : Store) (i : nat) (v : Item) :
  view w (core st) = Some s ->
  vs !! i = Some v ->
  (forall j v', (i < j)%nat -> vs !! j = Some v' -> Key v' <> Key v) ->
  let written := set_view w (core st) (apply_batch (batch_of vs) s) in
  item_encoded v = EncodeJSONValue (boxItem (Key v) (Value v))
  /\ (forall w',
        News w st vs = (None, w') \/ Sets w st vs = (None, w') ->
        w' = written)
  /\ (Forall (fun v => (item_encoded v).2 = None) vs ->
        (Forall (fun v => s !! makeKey (Key v) = None) vs ->
           News w st vs = (None, written))
        /\ (Forall (fun v => is_Some (s !! makeKey (Key v))) vs ->
              Sets w st vs = (None, written)))
  /\ GetRaw written st (Key v) = ((item_encoded v).1, None)
  /\ (forall target,
        Get written st (Key v) target =
          let '(i, err) := Unmarshal (item_encoded v).1 target in
          (i, decode_err err))
  /\ (asSerializable (Value v) = None ->
      (exists pre post, pre <> []
         /\ (item_encoded v).1 = pre ++ (EncodeJSONValue (Value v)).1 ++ post) ->
      forall w0 w2, New w0 st (Key v) (Value v) = (None, w2) ->
        GetRaw w2 st (Key v) = ((EncodeJSONValue (Value v)).1, None)
        /\ GetRaw w2 st (Key v) <> GetRaw written st (Key v)).
Proof.
  intros Hs Hi Hlater written.
  assert (vs <> []) as Hne by (intros ->; by rewrite lookup_nil in Hi).
  pose proof (GetRaw_after_batch _ _ _ _ _ _ Hs Hi Hlater) as Hraw.
  fold written in Hraw.
  split; [done|]. split; [|split; [|split; [done|split]]].
  - intros w' [Hcall|Hcall].
    + by destruct (News_success_inv _ _ _ _ _ Hs Hcall).
    + by destruct (Sets_success_inv _ _ _ _ _ Hs Hcall).
  - intros Henc. split; intros Hcheck.
    + rewrite (News_writes _ _ _ _ Hs Hne Hcheck Henc).
      by apply coreWrite_view.
    + rewrite (Sets_writes _ _ _ _ Hs Hne Hcheck Henc).
      by apply coreWrite_view.
  - intros target. by apply Get_GetRaw.
  - intros Hnoser (pre & post & Hpre & Hframe) w0 w2 HNew.
    assert ((item_encoded v).1 <> (EncodeJSONValue (Value v)).1) as Hdiff.
    { intros Heq. apply (f_equal length) in Hframe.
      rewrite Heq, !length_app in Hframe.
      destruct pre; [done|]. simpl in Hframe. lia. }
    destruct (New_success_inv _ _ _ _ _ HNew) as (b & Hv & Hraw2).
    unfold New_encoded in Hv. rewrite Hnoser in Hv.
    rewrite Hraw2, Hraw, Hv. simpl. split; [done|].
    intros [= ->]. rewrite Hv in Hdiff. by apply Hdiff.
Qed.

End Encoding.

(** ** The order of keys *)

Lemma to_N_inj (x y : byte) : Byte.to_N x = Byte.to_N y -> x = y.
Proof.
  intros Hxy. apply (inj Some).
  by rewrite <- (Byte.of_to_N x), <- (Byte.of_to_N y), Hxy.
Qed.

Lemma bytes_compare_cons x a y b :
  bytes_compare (x :: a) (y :: b) =
    match N.compare (Byte.to_N x) (Byte.to_N y) with
    | Eq => bytes_compare a b
    | c => c
    end.
Proof. done. Qed.

Lemma bytes_compare_refl a : bytes_compare a a = Eq.
Proof. induction a as [|x a IH]; [done|]. simpl. by rewrite N.compare_refl. Qed.

Lemma bytes_compare_eq a b : bytes_compare a b = Eq -> a = b.
Proof.
  revert b. induction a as [|x a IH]; intros [|y b]; try done.
  rewrite bytes_compare_cons.
  destruct (N.compare_spec (Byte.to_N x) (Byte.to_N y)) as [Hxy| |]; try done.
  intros Hab. by rewrite (to_N_inj _ _ Hxy), (IH b Hab).
Qed.

Lemma bytes_compare_antisym a b :
  bytes_compare b a = CompOpp (bytes_compare a b).
Proof.
  revert b. induction a as [|x a IH]; intros [|y b]; try done.
  rewrite !bytes_compare_cons, (N.compare_antisym (Byte.to_N x)).
  destruct (N.compare (Byte.to_N x) (Byte.to_N y)); simpl; auto.
Qed.

Lemma bytes_compare_lt_trans a1 a2 a3 :
  bytes_compare a1 a2 = Lt -> bytes_compare a2 a3 = Lt ->
  bytes_compare a1 a3 = Lt.
Proof.
  revert a2 a3.
  induction a1 as [|x a1 IH]; intros [|y a2] [|z a3]; simpl; try done.
  destruct (N.compare_spec (Byte.to_N x) (Byte.to_N y)) as [Hxy|Hxy|Hxy];
    destruct (N.compare_spec (Byte.to_N y) (Byte.to_N z)) as [Hyz|Hyz|Hyz];
    intros H1 H2; try discriminate.
  - rewrite (proj2 (N.compare_eq_iff _ _)) by congruence. by eapply IH.
  - by rewrite (proj2 (N.compare_lt_iff _ _)) by lia.
  - by rewrite (proj2 (N.compare_lt_iff _ _)) by lia.
  - by rewrite (proj2 (N.compare_lt_iff _ _)) by lia.
Qed.

Lemma bytes_le_lt_or_eq a b : bytes_le a b <-> bytes_lt a b \/ a = b.
Proof.
  unfold bytes_le, bytes_lt. split.
  - destruct (bytes_compare a b) eqn:Hab; [|by left|done].
    right. by apply bytes_compare_eq.
  - intros [->| ->]; [done|]. by rewrite bytes_compare_refl.
Qed.

#[global] Instance bytes_lt_trans : Transitive bytes_lt.
Proof. intros a b c. apply bytes_compare_lt_trans. Qed.

#[global] Instance bytes_le_trans : Transitive bytes_le.
Proof.
  intros a b c. rewrite !bytes_le_lt_or_eq.
  intros [Hab| ->] [Hbc| ->]; auto. left. by etrans.
Qed.

#[global] Instance bytes_le_total : Total bytes_le.
Proof.
  intros a b. unfold bytes_le. rewrite (bytes_compare_antisym a b).
  destruct (bytes_compare a b); simpl; auto.
Qed.

#[global] Instance key_le_trans : Transitive key_le.
Proof. intros a b c. unfold key_le. apply bytes_le_trans. Qed.

#[global] Instance key_le_total : Total key_le.
Proof. intros a b. unfold key_le. apply bytes_le_total. Qed.

(** ** The range of a prefix *)

Lemma byte_add1_to_N (c : byte) :
  (Byte.to_N c < 255)%N -> Byte.to_N (byte_add1 c) = (Byte.to_N c + 1)%N.
Proof.
  intros Hc. unfold byte_add1. rewrite N.mod_small by lia.
  destruct (Byte.of_N (Byte.to_N c + 1)) as [c'|] eqn:Hof.
  - by apply Byte.to_of_N.
  - apply Byte.of_N_None_iff in Hof. lia.
Qed.

Lemma BytesPrefix_limit_cons (c : byte) (prefix : bytes) (i : nat) :
  BytesPrefix_limit (c :: prefix) (S i) =
    match BytesPrefix_limit prefix i with
    | Some limit => Some (c :: limit)
    | None =>
        if (Byte.to_N c <? 255)%N then Some [byte_add1 c] else None
    end.
Proof.
  induction i as [|j IH]; [done|].
  change (BytesPrefix_limit (c :: prefix) (S (S j))) with
    (match prefix !! j with
     | Some d =>
         if (Byte.to_N d <? 255)%N
         then Some (c :: take j prefix ++ [byte_add1 d])
         else BytesPrefix_limit (c :: prefix) (S j)
     | None => BytesPrefix_limit (c :: prefix) (S j)
     end).
  rewrite IH. simpl.
  destruct (prefix !! j) as [d|]; [|done].
  by destruct (Byte.to_N d <? 255)%N.
Qed.

Lemma has_prefix_range (prefix key : bytes) :
  has_prefix prefix key = true <->
  bytes_le prefix key
  /\ match BytesPrefix_limit prefix (length prefix) with
     | Some limit => bytes_lt key limit
     | None => True
     end.
Proof.
  revert key. induction prefix as [|c prefix IH]; intros [|d key].
  - done.
  - done.
  - simpl. split; [done|]. by intros [Hle _].
  - cbn [length]. rewrite BytesPrefix_limit_cons.
    unfold bytes_le, bytes_lt in *. cbn [has_prefix].
    pose proof (Byte.to_N_bounded d) as Hd.
    rewrite bytes_compare_cons.
    destruct (N.compare_spec (Byte.to_N c) (Byte.to_N d)) as [Hcd|Hcd|Hcd].
    + apply to_N_inj in Hcd as <-. rewrite decide_True by done.
      rewrite (IH key).
      destruct (BytesPrefix_limit prefix (length prefix)) as [limit|].
      * rewrite bytes_compare_cons, N.compare_refl. reflexivity.
      * destruct (Byte.to_N c <? 255)%N eqn:Hc; [|reflexivity].
        apply N.ltb_lt in Hc.
        rewrite bytes_compare_cons, (byte_add1_to_N _ Hc).
        rewrite (proj2 (N.compare_lt_iff _ _)) by lia. tauto.
    + rewrite decide_False by (intros ->; lia).
      split; [done|]. intros [_ Hlim].
      destruct (BytesPrefix_limit prefix (length prefix)) as [limit|].
      * rewrite bytes_compare_cons in Hlim.
        by rewrite (proj2 (N.compare_gt_iff _ _)) in Hlim by lia.
      * destruct (Byte.to_N c <? 255)%N eqn:Hc.
        -- apply N.ltb_lt in Hc.
           rewrite bytes_compare_cons, (byte_add1_to_N _ Hc) in Hlim.
           destruct (N.compare_spec (Byte.to_N d) (Byte.to_N c + 1));
             [by destruct key|lia|done].
        -- apply N.ltb_ge in Hc. lia.
    + rewrite decide_False by (intros ->; lia).
      split; [done|]. by intros [Hle _].
Qed.

(** The range [GetIterator] asks for holds the keys with the prefix, and
    every key when the prefix is empty. *)
Lemma in_range_prefix (prefix : string) (key : bytes) :
  in_range
    (if (0 <? String.length prefix)%nat
     then Some (BytesPrefix (makeKey prefix)) else None) key
  = has_prefix (makeKey prefix) key.
Proof.
  destruct (0 <? String.length prefix)%nat eqn:Hlen.
  - apply eq_true_iff_eq. rewrite has_prefix_range. unfold in_range. simpl.
    rewrite andb_true_iff, bool_decide_eq_true.
    destruct (BytesPrefix_limit _ _); [by rewrite bool_decide_eq_true|].
    tauto.
  - apply Nat.ltb_ge in Hlen. destruct prefix; [done|simpl in Hlen; lia].
Qed.

(** ** The records of a range *)

Lemma records_Permutation (s : Store) (r : option Range) :
  records s r ≡ₚ filter (fun kv => in_range r kv.1 = true) (map_to_list s).
Proof. apply merge_sort_Permutation. Qed.

Lemma elem_of_records (s : Store) (r : option Range) (kv : bytes * bytes) :
  kv ∈ records s r <-> s !! kv.1 = Some kv.2 /\ in_range r kv.1 = true.
Proof.
  rewrite records_Permutation, list_elem_of_filter.
  destruct kv as [key value]. rewrite elem_of_map_to_list. simpl. tauto.
Qed.

Lemma elem_of_records_keys (s : Store) (r : option Range) (key : bytes) :
  key ∈ (records s r).*1 <-> is_Some (s !! key) /\ in_range r key = true.
Proof.
  rewrite list_elem_of_fmap. split.
  - intros (kv & -> & Hkv). apply elem_of_records in Hkv as [Hkv Hr]. eauto.
  - intros [[value Hkey] Hr]. exists (key, value). split; [done|].
    by apply elem_of_records.
Qed.

Lemma records_NoDup (s : Store) (r : option Range) : NoDup (records s r).*1.
Proof.
  rewrite records_Permutation.
  eapply sublist_NoDup; [apply (NoDup_fst_map_to_list s)|].
  apply fmap_sublist, sublist_filter.
Qed.

Lemma StronglySorted_keys (l : list (bytes * bytes)) :
  StronglySorted key_le l -> NoDup l.*1 -> StronglySorted bytes_lt l.*1.
Proof.
  induction 1 as [|kv l Hsorted IH Hall]; [constructor|].
  rewrite fmap_cons, NoDup_cons. intros [Hnotin Hnodup].
  constructor; [by apply IH|].
  apply Forall_fmap, Forall_forall. intros kv' Hin.
  rewrite Forall_forall in Hall. specialize (Hall kv' Hin).
  apply bytes_le_lt_or_eq in Hall as [Hlt|Heq]; [done|].
  destruct Hnotin. simpl. rewrite Heq. by apply list_elem_of_fmap_2.
Qed.

Lemma records_sorted (s : Store) (r : option Range) :
  StronglySorted bytes_lt (records s r).*1.
Proof.
  apply StronglySorted_keys; [|apply records_NoDup].
  apply StronglySorted_merge_sort; apply _.
Qed.

Lemma StronglySorted_reverse_flip {A} (R : relation A) (l : list A) :
  StronglySorted R l -> StronglySorted (flip R) (reverse l).
Proof.
  induction 1 as [|x l Hsorted IH Hall]; [constructor|].
  rewrite reverse_cons. apply StronglySorted_app_2; [|done|repeat constructor].
  intros y z Hy Hz. rewrite elem_of_reverse in Hy. apply list_elem_of_singleton in Hz as ->.
  rewrite Forall_forall in Hall. exact (Hall y Hy).
Qed.

(** ** One call of [next] *)

Lemma iterCurrent_at recs (i : nat) :
  iterCurrent (cursor_at recs (Z.of_nat i)) = recs !! i.
Proof.
  unfold iterCurrent. simpl.
  rewrite (proj2 (Z.leb_le _ _)) by lia. by rewrite Nat2Z.id.
Qed.

Lemma next_exhausted recs pos f n :
  next (IterClosures (cursor_released recs pos) f false n)
    = (IterItem.zero, false, IterClosures (cursor_released recs pos) f false n).
Proof. by destruct f. Qed.

Lemma next_forward recs (i : nat) n kv :
  recs !! i = Some kv ->
  next (IterClosures (cursor_at recs (Z.of_nat i - 1)) IterNext false n)
    = ({| IterItem.N := int64_incr n; IterItem.Key := kv.1;
          IterItem.Value := kv.2 |}, true,
       IterClosures (cursor_at recs (Z.of_nat (S i) - 1)) IterNext false
         (int64_incr n)).
Proof.
  intros Hi. pose proof (lookup_lt_Some _ _ _ Hi) as Hlt.
  replace (Z.of_nat (S i) - 1) with (Z.of_nat i) by lia.
  unfold next, callFuncNext, iterNext, it_len. simpl.
  rewrite (proj2 (Z.ltb_lt _ _)) by lia. simpl.
  replace (Z.of_nat i - 1 + 1) with (Z.of_nat i) by lia.
  unfold iterMove, iterKey, iterValue. simpl.
  fold (cursor_at recs (Z.of_nat i)). by rewrite iterCurrent_at, Hi.
Qed.

Lemma next_forward_end recs n :
  next (IterClosures (cursor_at recs (Z.of_nat (length recs) - 1)) IterNext false n)
    = (IterItem.zero, false,
       IterClosures (cursor_released recs (Z.of_nat (length recs))) IterNext
         false n).
Proof.
  unfold next, callFuncNext, iterNext, it_len. simpl.
  by rewrite (proj2 (Z.ltb_ge _ _)) by lia.
Qed.

Lemma next_backward recs (p : nat) n kv :
  recs !! p = Some kv ->
  next (IterClosures (cursor_at recs (Z.of_nat (S p))) IterPrev false n)
    = ({| IterItem.N := int64_incr n; IterItem.Key := kv.1;
          IterItem.Value := kv.2 |}, true,
       IterClosures (cursor_at recs (Z.of_nat p)) IterPrev false (int64_incr n)).
Proof.
  intros Hp.
  replace (Z.of_nat (S p)) with (Z.of_nat p + 1) by lia.
  unfold next, callFuncNext, iterPrev. simpl.
  rewrite (proj2 (Z.leb_le _ _)) by lia. simpl.
  replace (Z.of_nat p + 1 - 1) with (Z.of_nat p) by lia.
  unfold iterMove, iterKey, iterValue. simpl.
  fold (cursor_at recs (Z.of_nat p)). by rewrite iterCurrent_at, Hp.
Qed.

Lemma next_backward_end recs n :
  next (IterClosures (cursor_at recs (Z.of_nat 0)) IterPrev false n)
    = (IterItem.zero, false, IterClosures (cursor_released recs (-1)) IterPrev false n).
Proof. done. Qed.

Lemma next_unsent recs (p : nat) f n kv :
  recs !! p = Some kv ->
  next (IterClosures (cursor_at recs (Z.of_nat p)) f true n)
    = ({| IterItem.N := n; IterItem.Key := kv.1; IterItem.Value := kv.2 |},
       true, IterClosures (cursor_at recs (Z.of_nat p)) f false n).
Proof.
  intros Hp. unfold next, iterKey, iterValue. by rewrite iterCurrent_at, Hp.
Qed.

(** ** Whole sessions *)

Lemma yields_forward recs (i : nat) n :
  (i <= length recs)%nat ->
  yields (IterClosures (cursor_at recs (Z.of_nat i - 1)) IterNext false n)
    (numbered n (drop i recs)).
Proof.
  intros Hi. remember (length recs - i)%nat as k eqn:Hk.
  revert i n Hi Hk. induction k as [|k IH]; intros i n Hi Hk.
  - assert (i = length recs) as -> by lia. rewrite drop_all. simpl.
    eexists. split; [apply next_forward_end|]. split; [done|].
    apply next_exhausted.
  - destruct (lookup_lt_is_Some_2 recs i) as [kv Hkv]; [lia|].
    rewrite (drop_S _ _ _ Hkv). simpl. split; [done|].
    eexists. split; [by apply next_forward|]. split; [done|].
    apply IH; [|lia]. by eapply Nat.le_succ_l, lookup_lt_Some.
Qed.

Lemma yields_backward recs (p : nat) n :
  (p < length recs)%nat ->
  yields (IterClosures (cursor_at recs (Z.of_nat p)) IterPrev false n)
    (numbered n (reverse (take p recs))).
Proof.
  revert n. induction p as [|p IH]; intros n Hp.
  - simpl. eexists. split; [apply next_backward_end|]. split; [done|].
    apply next_exhausted.
  - destruct (lookup_lt_is_Some_2 recs p) as [kv Hkv]; [lia|].
    rewrite (take_S_r _ _ _ Hkv), reverse_snoc. simpl. split; [done|].
    eexists. split; [by apply next_backward|]. split; [done|].
    apply IH. lia.
Qed.

Lemma GetIterator_view w st prefix backward s :
  view w (core st) = Some s ->
  let recs := records s
    (if (0 <? String.length prefix)%nat
     then Some (BytesPrefix (makeKey prefix)) else None) in
  GetIterator w st prefix backward =
    if backward then
      match recs with
      | [] => NoClosures (cursor_released recs (-1))
      | _ :: _ =>
          IterClosures (cursor_at recs (Z.of_nat (length recs - 1))) IterPrev
            true 0
      end
    else IterClosures (cursor_at recs (-1)) IterNext false 0.
Proof.
  intros Hs recs. unfold GetIterator, coreNewIterator. rewrite Hs.
  fold recs. destruct backward; [|done].
  unfold iterLast, it_len. simpl.
  destruct recs as [|kv recs']; [done|].
  rewrite (proj2 (Z.ltb_lt _ _)) by (simpl; lia). simpl.
  unfold iterMove, cursor_at. simpl. do 2 f_equal. lia.
Qed.

Lemma yields_GetIterator w st prefix backward s :
  view w (core st) = Some s ->
  yields (GetIterator w st prefix backward)
    (session_items backward
       (records s
          (if (0 <? String.length prefix)%nat
           then Some (BytesPrefix (makeKey prefix)) else None))).
Proof.
  intros Hs. rewrite (GetIterator_view _ _ _ _ _ Hs).
  set (recs := records s _). unfold session_items.
  destruct backward.
  - destruct (decide (recs = [])) as [->|Hne].
    + simpl. eexists. split; [done|]. split; done.
    + destruct recs as [|kv0 recs'] eqn:Hrecs; [done|]. rewrite <- Hrecs.
      assert (length recs - 1 < length recs)%nat as Hlt
        by (rewrite Hrecs; simpl; lia).
      destruct (lookup_lt_is_Some_2 recs _ Hlt) as [kv Hkv].
      assert (reverse recs = kv :: reverse (take (length recs - 1) recs))
        as ->.
      { rewrite <- reverse_snoc, <- (take_S_r _ _ _ Hkv).
        by rewrite firstn_all2 by lia. }
      simpl. split; [done|].
      eexists. split; [by apply next_unsent|]. split; [done|].
      by apply yields_backward.
  - pose proof (yields_forward recs 0 0) as Hy. apply Hy. lia.
Qed.

Lemma after_calls_S i c : after_calls (S i) c = after_calls i (next c).2.
Proof. unfold after_calls. by rewrite Nat.iter_succ_r. Qed.

Lemma after_calls_exhausted c j :
  next c = (IterItem.zero, false, c) -> after_calls j c = c.
Proof.
  intros Hc. induction j as [|j IH]; [done|].
  by rewrite after_calls_S, Hc.
Qed.

Lemma yields_calls c items :
  yields c items ->
  (forall i item, items !! i = Some item ->
     next (after_calls i c) = (item, true, after_calls (S i) c)
     /\ it_released (cursor (after_calls i c)) = false
     /\ it_released (cursor (after_calls (S i) c)) = false)
  /\ next (after_calls (length items) c)
       = (IterItem.zero, false, after_calls (S (length items)) c)
  /\ it_released (cursor (after_calls (S (length items)) c)) = true
  /\ (forall j, (length items < j)%nat ->
        next (after_calls j c) = (IterItem.zero, false, after_calls j c)).
Proof.
  revert c. induction items as [|item items IH]; intros c Hy.
  - destruct Hy as (c' & Hnext & Hrel & Hfix).
    assert (forall j, after_calls (S j) c = c') as Hafter.
    { intros j. rewrite after_calls_S, Hnext. by apply after_calls_exhausted. }
    split; [intros i item' Hi; by rewrite lookup_nil in Hi|].
    split; [by rewrite Hafter|].
    split; [by rewrite Hafter|].
    intros [|j] Hj; [simpl in Hj; lia|]. by rewrite Hafter.
  - destruct Hy as (Hrel & c' & Hnext & Hrel' & Hy).
    destruct (IH c' Hy) as (Hitems & Hend & Hend_rel & Hlater).
    assert (forall j, after_calls (S j) c = after_calls j c') as Hafter.
    { intros j. by rewrite after_calls_S, Hnext. }
    split; [|split; [|split]].
    + intros [|i] item' Hi.
      * injection Hi as <-. simpl. by rewrite Hnext.
      * rewrite !Hafter. by apply Hitems.
    + simpl length. by rewrite !Hafter.
    + simpl length. by rewrite Hafter.
    + intros [|j] Hj; [lia|]. rewrite Hafter. apply Hlater. simpl in Hj. lia.
Qed.

Lemma yields_drain c items fuel :
  yields c items -> (length items < fuel)%nat ->
  exists c', drain fuel c = (items, true, c')
    /\ it_released (cursor c') = true.
Proof.
  revert c fuel. induction items as [|item items IH]; intros c fuel Hy Hfuel.
  - destruct Hy as (c' & Hnext & Hrel & _).
    destruct fuel as [|fuel]; [simpl in Hfuel; lia|].
    exists c'. simpl. by rewrite Hnext.
  - destruct Hy as (_ & c' & Hnext & _ & Hy).
    destruct fuel as [|fuel]; [lia|].
    destruct (IH c' fuel Hy) as (c'' & Hdrain & Hrel); [simpl in Hfuel; lia|].
    exists c''. simpl. by rewrite Hnext, Hdrain.
Qed.

Lemma numbered_records n recs :
  (fun item => (IterItem.Key item, IterItem.Value item)) <$> numbered n recs
    = recs.
Proof.
  revert n. induction recs as [|[key value] recs IH]; intros n; [done|].
  simpl. by rewrite IH.
Qed.

Lemma session_items_records backward recs :
  (fun item => (IterItem.Key item, IterItem.Value item))
    <$> session_items backward recs
  = if backward then reverse recs else recs.
Proof.
  unfold session_items. destruct backward; [|apply numbered_records].
  destruct (reverse recs) as [|[key value] recs']; [done|].
  simpl. by rewrite numbered_records.
Qed.

(** ** The iterator protocol *)

(** C5. For the closures of [GetIterator] on a handle whose keyspace is
    [s]: while records of the range remain (in key order, backward when
    [reverse] is set), [next] returns the record with [true] and the
    cursor is not released; the call after the last record returns the
    zero item with [false] and releases the cursor, and so does every
    later call; and when [reverse] is set and the range is empty, the
    cursor is released before any call and the first [next] returns
    [false]. *)
Theorem next_until_exhausted (w : World) (st : LevelDBBackend)
    (prefix : string) (reverse_ : bool) (s : Store) :
  view w (core st) = Some s ->
  let c0 := GetIterator w st prefix reverse_ in
  let recs := records s
    (if (0 <? String.length prefix)%nat
     then Some (BytesPrefix (makeKey prefix)) else None) in
  let ordered := if reverse_ then reverse recs else recs in
  (forall i kv, ordered !! i = Some kv ->
     exists item,
       next (after_calls i c0) = (item, true, after_calls (S i) c0)
       /\ IterItem.Key item = kv.1 /\ IterItem.Value item = kv.2
       /\ it_released (cursor (after_calls i c0)) = false
       /\ it_released (cursor (after_calls (S i) c0)) = false)
  /\ next (after_calls (length ordered) c0)
       = (IterItem.zero, false, after_calls (S (length ordered)) c0)
  /\ it_released (cursor (after_calls (S (length ordered)) c0)) = true
  /\ (forall j, (length ordered < j)%nat ->
        next (after_calls j c0) = (IterItem.zero, false, after_calls j c0))
  /\ (reverse_ = true -> ordered = [] ->
        it_released (cursor c0) = true
        /\ next c0 = (IterItem.zero, false, c0)).
Proof.
  intros Hs c0 recs ordered.
  pose proof (yields_GetIterator w st prefix reverse_ s Hs) as Hy.
  fold c0 recs in Hy.
  pose proof (session_items_records reverse_ recs) as Hordered.
  fold ordered in Hordered.
  destruct (yields_calls _ _ Hy) as (Hitems & Hend & Hrel & Hlater).
  assert (length (session_items reverse_ recs) = length ordered) as Hlen.
  { by rewrite <- Hordered, length_fmap. }
  rewrite Hlen in Hend, Hrel, Hlater.
  split; [|split; [done|split; [done|split; [done|]]]].
  - intros i kv Hi. rewrite <- Hordered, list_lookup_fmap in Hi.
    destruct (session_items reverse_ recs !! i) as [item|] eqn:Hitem;
      [|discriminate].
    injection Hi as <-. exists item.
    destruct (Hitems i item Hitem) as (Hnext & Hrel1 & Hrel2). done.
  - intros -> Hempty. subst c0.
    rewrite (GetIterator_view _ _ _ _ _ Hs). fold recs.
    assert (recs = []) as ->.
    { subst ordered. by rewrite <- (reverse_involutive recs), Hempty. }
    done.
Qed.

(** ** Inserting, then iterating *)

Lemma set_view_set_view w c s1 s2 :
  set_view (set_view w c s1) c s2 = set_view w c s2.
Proof.
  destruct c as [|id]; [done|]. unfold set_view. simpl.
  by rewrite list_insert_insert_eq.
Qed.

Section Inserting.
Context `{Codec}.

Lemma New_all_inserts w st kvs s :
  view w (core st) = Some s ->
  NoDup kvs.*1 ->
  Forall (fun kv => s !! makeKey kv.1 = None) kvs ->
  Forall (fun kv => (New_encoded kv.2).2 = None) kvs ->
  exists s', New_all w st kvs = (None, set_view w (core st) s')
    /\ forall key,
         is_Some (s' !! key) <-> is_Some (s !! key) \/ key ∈ makeKey <$> kvs.*1.
Proof.
  revert w s. induction kvs as [|[k v] kvs IH]; intros w s Hs Hdup Habs Henc.
  - exists s. split.
    + simpl. f_equal. destruct w as [d txs], st as [[|id]]; simpl in *;
        [by injection Hs as ->|].
      destruct (txs !! id) as [tr|] eqn:Htr; [|done].
      destruct tr as [ts []]; [done|]. injection Hs as ->.
      by rewrite list_insert_id.
    + intros key. rewrite fmap_nil, elem_of_nil. tauto.
  - rewrite fmap_cons, NoDup_cons in Hdup. destruct Hdup as [Hk Hdup].
    apply Forall_cons in Habs as [Hkabs Habs].
    apply Forall_cons in Henc as [Hv Henc]. simpl in Hkabs, Hv, Hk.
    destruct (New_encoded v) as [b err] eqn:Hb. simpl in Hv. subst err.
    assert (Has w st k = (false, None)) as HHas.
    { rewrite (Has_view _ _ _ _ Hs), Hkabs.
      rewrite bool_decide_eq_false_2; [done|]. by intros [? ?]. }
    destruct (New_absent _ _ _ _ _ Hb HHas) as (s0 & Hs0 & HNew).
    rewrite Hs in Hs0. injection Hs0 as <-.
    destruct (IH (set_view w (core st) (<[makeKey k := b]> s))
                 (<[makeKey k := b]> s)) as (s' & Hall & Hdom).
    + by eapply view_set_view.
    + done.
    + apply Forall_forall. intros [k' v'] Hin. simpl.
      rewrite lookup_insert_ne.
      * rewrite Forall_forall in Habs. by apply (Habs (k', v')).
      * intros Heq. apply makeKey_inj in Heq as ->. apply Hk.
        by apply (list_elem_of_fmap_2 fst) in Hin.
    + done.
    + exists s'. split.
      * cbn [New_all]. rewrite HNew. simpl. rewrite Hall.
        by rewrite set_view_set_view.
      * intros key. rewrite Hdom, lookup_insert_is_Some, !fmap_cons,
          elem_of_cons. simpl.
        destruct (decide (makeKey k = key)) as [<-|Hne]; [tauto|].
        split; [intros [[|[_ ?]]|]|intros [|[|]]]; auto; congruence.
Qed.

End Inserting.

Lemma numbered_keys n recs : IterItem.Key <$> numbered n recs = recs.*1.
Proof.
  revert n. induction recs as [|kv recs IH]; intros n; [done|].
  simpl. by rewrite IH.
Qed.

Lemma session_items_keys backward recs :
  IterItem.Key <$> session_items backward recs
  = if backward then reverse recs.*1 else recs.*1.
Proof.
  unfold session_items. destruct backward; [|apply numbered_keys].
  rewrite <- fmap_reverse.
  destruct (reverse recs) as [|kv recs']; [done|].
  simpl. by rewrite numbered_keys.
Qed.

Lemma filter_all {A} (P : A -> Prop) `{forall x, Decision (P x)} (l : list A) :
  (forall x, P x) -> filter P l = l.
Proof.
  intros HP. induction l as [|x l IH]; [done|].
  rewrite filter_cons. destruct (decide (P x)) as [_|Hno]; [|by destruct Hno].
  by f_equal.
Qed.

Section Ordering.
Context `{Codec}.

(** C6. After [New] has inserted [N] pairs with distinct keys (and values
    that encode) into a fresh engine, draining the iterator of a prefix
    ends within [N + 1] calls; forward, the keys it returns are exactly
    the inserted keys that have the prefix, each once, in strictly
    ascending byte order; backward, they are the same keys in the
    opposite, strictly descending, order; and with the empty prefix there
    are exactly [N] items. *)
Theorem iteration_order (kvs : list (string * Any)) (prefix : string) :
  NoDup kvs.*1 ->
  Forall (fun kv => (New_encoded kv.2).2 = None) kvs ->
  exists w fwd bwd cf cb,
    New_all Init.1 Init.2 kvs = (None, w)
    /\ drain (S (length kvs)) (GetIterator w Init.2 prefix false)
         = (fwd, true, cf)
    /\ drain (S (length kvs)) (GetIterator w Init.2 prefix true)
         = (bwd, true, cb)
    /\ IterItem.Key <$> fwd
         ≡ₚ filter (fun key => has_prefix (makeKey prefix) key = true)
              (makeKey <$> kvs.*1)
    /\ StronglySorted bytes_lt (IterItem.Key <$> fwd)
    /\ IterItem.Key <$> bwd = reverse (IterItem.Key <$> fwd)
    /\ StronglySorted (flip bytes_lt) (IterItem.Key <$> bwd)
    /\ (prefix = ""%string ->
          length fwd = length kvs /\ length bwd = length kvs).
Proof.
  intros Hdup Henc.
  assert (view Init.1 (core Init.2) = Some (∅ : Store)) as Hs0 by done.
  destruct (New_all_inserts Init.1 Init.2 kvs ∅ Hs0 Hdup) as (s & HNew & Hdom).
  { apply Forall_forall. intros kv _. apply lookup_empty. }
  { done. }
  set (w := set_view Init.1 (core Init.2) s) in *.
  assert (view w (core Init.2) = Some s) as Hs by done.
  set (range := if (0 <? String.length prefix)%nat
                then Some (BytesPrefix (makeKey prefix)) else None).
  set (recs := records s range).
  set (matching := filter (fun key => has_prefix (makeKey prefix) key = true)
                     (makeKey <$> kvs.*1)).
  assert (recs.*1 ≡ₚ matching) as Hperm.
  { apply NoDup_Permutation.
    - apply records_NoDup.
    - apply NoDup_filter, NoDup_fmap_2_strong; [|done].
      intros k1 k2 _ _. apply makeKey_inj.
    - intros key. unfold recs, matching, range.
      rewrite elem_of_records_keys, in_range_prefix, list_elem_of_filter, Hdom.
      rewrite lookup_empty. split; [intros [[[? ?]|] ?]|intros [? ?]]; auto;
        done. }
  assert (length recs <= length kvs)%nat as Hlen.
  { rewrite <- (length_fmap fst recs), Hperm. unfold matching.
    etrans; [apply length_filter|]. by rewrite !length_fmap. }
  pose proof (yields_GetIterator w Init.2 prefix false s Hs) as Hf.
  pose proof (yields_GetIterator w Init.2 prefix true s Hs) as Hb.
  fold range recs in Hf, Hb.
  assert (forall backward,
    length (session_items backward recs) = length recs) as Hitems.
  { intros backward.
    rewrite <- (length_fmap IterItem.Key), session_items_keys.
    destruct backward; by rewrite ?length_reverse, length_fmap. }
  destruct (yields_drain _ _ (S (length kvs)) Hf) as (cf & Hdf & _).
  { rewrite Hitems. lia. }
  destruct (yields_drain _ _ (S (length kvs)) Hb) as (cb & Hdb & _).
  { rewrite Hitems. lia. }
  exists w, (session_items false recs), (session_items true recs), cf, cb.
  rewrite !session_items_keys.
  split; [done|]. split; [done|]. split; [done|]. split; [done|].
  split; [apply records_sorted|]. split; [done|].
  split; [apply StronglySorted_reverse_flip, records_sorted|].
  intros ->. rewrite !Hitems.
  assert (length recs = length kvs) as ->; [|done].
  rewrite <- (length_fmap fst recs), Hperm. unfold matching.
  transitivity (length (makeKey <$> kvs.*1)); [|by rewrite !length_fmap].
  f_equal. by apply filter_all.
Qed.

End Ordering.

(** ** Sequence numbers *)

Lemma int64_incr_small n :
  - 2 ^ 63 <= n + 1 < 2 ^ 63 -> int64_incr n = n + 1.
Proof. intros Hn. unfold int64_incr. rewrite Z.mod_small; lia. Qed.

Lemma room_released it f : room (iterRelease it) f = 0.
Proof. done. Qed.

Lemma callFuncNext_room f it it' :
  callFuncNext f it = (true, it') ->
  1 <= room it f /\ room it' f = room it f - 1.
Proof.
  unfold callFuncNext, iterNext, iterPrev, room, it_len.
  destruct f, (it_released it) eqn:Hrel; try discriminate.
  - destruct (0 <=? it_pos it - 1) eqn:Hpos; [|discriminate].
    intros [= <-]. simpl. rewrite Hrel. apply Z.leb_le in Hpos. lia.
  - destruct (it_pos it + 1 <? _) eqn:Hpos; [|discriminate].
    intros [= <-]. simpl. rewrite Hrel. apply Z.ltb_lt in Hpos. lia.
Qed.

Lemma run_increasing bound calls c :
  bound < 2 ^ 63 -> counter_bounded bound c ->
  StronglySorted Z.lt (IterItem.N <$> run calls c)
  /\ Forall (fun x => next_number c <= x) (IterItem.N <$> run calls c).
Proof.
  intros Hbound. revert c.
  induction calls as [|[|] calls IH]; intros c Hc.
  - split; constructor.
  - destruct c as [it|it f [|] n].
    + by apply (IH (NoClosures it)).
    + destruct Hc as (Hn & Hroom & Hsum).
      destruct (IH (IterClosures it f false n)) as [Hsorted Hall]; [done|].
      cbn [run next next_number] in *. rewrite fmap_cons. simpl. split.
      * constructor; [done|]. eapply Forall_impl; [exact Hall|].
        simpl. intros x Hx. lia.
      * constructor; [lia|]. eapply Forall_impl; [exact Hall|].
        simpl. intros x Hx. lia.
    + destruct Hc as (Hn & Hroom & Hsum).
      cbn [run next next_number].
      destruct (callFuncNext f it) as [[|] it'] eqn:Hcall; simpl.
      * destruct (callFuncNext_room _ _ _ Hcall) as [Hone Hroom'].
        rewrite int64_incr_small by lia.
        destruct (IH (IterClosures it' f false (n + 1))) as [Hsorted Hall].
        { simpl. lia. }
        simpl in Hall. split.
        -- constructor; [done|]. eapply Forall_impl; [exact Hall|].
           simpl. intros x Hx. lia.
        -- constructor; [lia|]. eapply Forall_impl; [exact Hall|].
           simpl. intros x Hx. lia.
      * apply (IH (IterClosures (iterRelease it') f false n)).
        simpl. rewrite room_released. lia.
  - destruct c as [it|it f u n]; [by apply (IH (NoClosures it))|].
    destruct Hc as (Hn & Hroom & Hsum).
    apply (IH (IterClosures (iterRelease it) f u n)).
    simpl. rewrite room_released. lia.
Qed.

Lemma records_length_le (s : Store) (r : option Range) :
  (length (records s r) <= size s)%nat.
Proof.
  rewrite records_Permutation, <- length_map_to_list. apply length_filter.
Qed.

Lemma GetIterator_bounded w st prefix backward s :
  view w (core st) = Some s ->
  counter_bounded (Z.of_nat (size s)) (GetIterator w st prefix backward).
Proof.
  intros Hs. rewrite (GetIterator_view _ _ _ _ _ Hs).
  set (recs := records s _).
  pose proof (records_length_le s
    (if (0 <? String.length prefix)%nat
     then Some (BytesPrefix (makeKey prefix)) else None)) as Hlen.
  fold recs in Hlen.
  destruct backward.
  - destruct recs as [|kv recs'] eqn:Hrecs; [done|]. rewrite <- Hrecs in *.
    unfold counter_bounded, room, it_len. simpl. lia.
  - unfold counter_bounded, room, it_len. simpl. lia.
Qed.

Lemma first_number w st prefix backward s item c' :
  view w (core st) = Some s ->
  next (GetIterator w st prefix backward) = (item, true, c') ->
  IterItem.N item = if backward then 0 else 1.
Proof.
  intros Hs. rewrite (GetIterator_view _ _ _ _ _ Hs).
  set (recs := records s _). destruct backward.
  - destruct recs as [|kv recs']; [discriminate|].
    cbn [next]. by intros [= <- _].
  - cbn [next]. destruct (callFuncNext _ _) as [[|] it']; simpl.
    + by intros [= <- _].
    + discriminate.
Qed.

Lemma length_numbered n recs : length (numbered n recs) = length recs.
Proof.
  revert n. induction recs as [|kv recs IH]; intros n; [done|].
  simpl. by rewrite IH.
Qed.

Lemma numbered_N n recs :
  0 <= n -> n + Z.of_nat (length recs) < 2 ^ 63 ->
  IterItem.N <$> numbered n recs = seqZ (n + 1) (Z.of_nat (length recs)).
Proof.
  revert n. induction recs as [|kv recs IH]; intros n Hn Hlen; [done|].
  cbn [numbered length] in *. rewrite fmap_cons. simpl IterItem.N.
  rewrite int64_incr_small by lia.
  rewrite seqZ_cons by lia. f_equal.
  rewrite IH by lia. f_equal; lia.
Qed.

Lemma session_items_N backward recs :
  Z.of_nat (length recs) < 2 ^ 63 ->
  IterItem.N <$> session_items backward recs
  = seqZ (if backward then 0 else 1) (Z.of_nat (length recs)).
Proof.
  intros Hlen. unfold session_items. destruct backward.
  - rewrite <- (length_reverse recs) in *.
    destruct (reverse recs) as [|kv recs']; [done|].
    cbn [length] in *. rewrite fmap_cons. simpl IterItem.N.
    rewrite seqZ_cons by lia. f_equal.
    rewrite numbered_N by lia. f_equal; lia.
  - by rewrite numbered_N by lia.
Qed.

Lemma yields_run c items :
  yields c items -> run (replicate (length items) CallNext) c = items.
Proof.
  revert c. induction items as [|item items IH]; intros c Hy; [done|].
  destruct Hy as (_ & c' & Hnext & _ & Hy).
  cbn [length replicate run]. rewrite Hnext. f_equal. by apply IH.
Qed.

Lemma length_session_items backward recs :
  length (session_items backward recs) = length recs.
Proof.
  rewrite <- (length_fmap IterItem.Key), session_items_keys.
  destruct backward; by rewrite ?length_reverse, length_fmap.
Qed.

Lemma first_item w st prefix backward s :
  view w (core st) = Some s ->
  records s
    (if (0 <? String.length prefix)%nat
     then Some (BytesPrefix (makeKey prefix)) else None) <> [] ->
  exists item c',
    next (GetIterator w st prefix backward) = (item, true, c')
    /\ IterItem.N item = if backward then 0 else 1.
Proof.
  intros Hs Hne.
  pose proof (yields_GetIterator w st prefix backward s Hs) as Hy.
  pose proof (length_session_items backward (records s
    (if (0 <? String.length prefix)%nat
     then Some (BytesPrefix (makeKey prefix)) else None))) as Hlen.
  destruct (session_items backward _) as [|item items] eqn:Hitems.
  - destruct (records s _); [done|discriminate].
  - destruct Hy as (_ & c' & Hnext & _). exists item, c'.
    split; [done|]. by apply (first_number w st prefix backward s item c').
Qed.

(** C7. For the closures of [GetIterator] on a handle whose keyspace
    holds fewer than 2^63 records: however the caller interleaves [next]
    and [release], the sequence numbers of the items [next] returns are
    strictly increasing; calling [next] once per record of the range
    returns items numbered 1, 2, 3, ... forward and 0, 1, 2, ... in
    reverse; and when the range is not empty the first [next] does
    return an item, which carries 1 in a forward iteration (the counter
    is incremented before it is returned) and 0 in a reverse one (it is
    returned before any increment), so the two differ. *)
Theorem sequence_numbers (w : World) (st : LevelDBBackend) (prefix : string)
    (s : Store) :
  view w (core st) = Some s ->
  Z.of_nat (size s) < 2 ^ 63 ->
  let recs := records s
    (if (0 <? String.length prefix)%nat
     then Some (BytesPrefix (makeKey prefix)) else None) in
  (forall reverse_ calls,
     StronglySorted Z.lt
       (IterItem.N <$> run calls (GetIterator w st prefix reverse_)))
  /\ (forall reverse_,
        IterItem.N <$> run (replicate (length recs) CallNext)
                         (GetIterator w st prefix reverse_)
        = seqZ (if reverse_ then 0 else 1) (Z.of_nat (length recs)))
  /\ (recs <> [] ->
        exists item_f c_f item_r c_r,
          next (GetIterator w st prefix false) = (item_f, true, c_f)
          /\ IterItem.N item_f = 1
          /\ next (GetIterator w st prefix true) = (item_r, true, c_r)
          /\ IterItem.N item_r = 0
          /\ IterItem.N item_f <> IterItem.N item_r)
  /\ (forall item c',
        next (GetIterator w st prefix false) = (item, true, c') ->
        IterItem.N item = 1)
  /\ (forall item c',
        next (GetIterator w st prefix true) = (item, true, c') ->
        IterItem.N item = 0)
  /\ (forall item_f c_f item_r c_r,
        next (GetIterator w st prefix false) = (item_f, true, c_f) ->
        next (GetIterator w st prefix true) = (item_r, true, c_r) ->
        IterItem.N item_f <> IterItem.N item_r).
Proof.
  intros Hs Hsize recs.
  pose proof (records_length_le s
    (if (0 <? String.length prefix)%nat
     then Some (BytesPrefix (makeKey prefix)) else None)) as Hle.
  fold recs in Hle.
  split; [|split; [|split; [|split; [|split]]]].
  - intros reverse_ calls.
    by apply (run_increasing (Z.of_nat (size s))), GetIterator_bounded.
  - intros reverse_.
    pose proof (yields_GetIterator w st prefix reverse_ s Hs) as Hy.
    fold recs in Hy. apply yields_run in Hy.
    rewrite length_session_items in Hy. rewrite Hy.
    apply session_items_N. lia.
  - intros Hne.
    destruct (first_item w st prefix false s Hs Hne) as (item_f & c_f & Hf & HNf).
    destruct (first_item w st prefix true s Hs Hne) as (item_r & c_r & Hr & HNr).
    exists item_f, c_f, item_r, c_r. rewrite HNf, HNr. done.
  - intros item c'. by apply (first_number w st prefix false s).
  - intros item c'. by apply (first_number w st prefix true s).
  - intros item_f c_f item_r c_r Hf Hr.
    rewrite (first_number w st prefix false s _ _ Hs Hf).
    by rewrite (first_number w st prefix true s _ _ Hs Hr).
Qed.

(** ** Runs on the sample codec *)

Import Sample.

(** C1, the claim fails: a non-empty list whose keys are all absent, with
    a value the encoder refuses, is not written; [News] returns the
    encoder's error. *)
Lemma News_unencodable_item_not_written :
  let vs := [{| Key := "a"; Value := GoChan |}] in
  Has Init.1 Init.2 "a" = (false, None)
  /\ News Init.1 Init.2 vs
       = (Some (ErrEncode "json: unsupported type: chan int"), Init.1)
  /\ Has (News Init.1 Init.2 vs).2 Init.2 "a" = (false, None)
  /\ kind (ErrEncode "json: unsupported type: chan int") <> EmptyBatch
  /\ kind (ErrEncode "json: unsupported type: chan int") <> AlreadyExists.
Proof. repeat split; done. Qed.

Lemma batch_check_encode_write_witness :
  let vs := [item "x" 1; item "y" 2] in
  News Init.1 Init.2 vs = coreWrite Init.1 (core Init.2) (batch_of vs)
  /\ Forall (fun v =>
       Has (set_view Init.1 (core Init.2) (apply_batch (batch_of vs) ∅))
         Init.2 (Key v) = (true, None)) vs
  /\ (exists v, v ∈ [item "k" 5]
        /\ News with_k Init.2 [item "k" 5]
             = (Some (ErrFoundExistingKey (Key v)), with_k)
        /\ kind (ErrFoundExistingKey (Key v)) = AlreadyExists).
Proof.
  intros vs.
  assert (view Init.1 (core Init.2) = Some (∅ : Store)) as Hs by done.
  destruct (@batch_check_encode_write codec Init.1 Init.2 vs ∅ Hs)
    as (_ & _ & _ & _ & Hwrite).
  destruct Hwrite as (_ & Hpresent & HNews & _);
    [done|repeat constructor|].
  split; [apply HNews; repeat constructor|]. split; [exact Hpresent|].
  assert (view with_k (core Init.2) = Some (db with_k)) as Hk by done.
  destruct (@batch_check_encode_write codec with_k Init.2 [item "k" 5] _ Hk)
    as (_ & Hexisting & _).
  apply Hexisting. constructor. apply (bool_decide_unpack _). by vm_compute.
Defined.

(** C2, the claim fails: on a present key, with a value the encoder
    refuses, [New] returns the encoder's error and not the "already
    exists" error; the encoding step comes before the existence check. *)
Lemma New_present_key_encoding_error :
  Has with_k Init.2 "k" = (true, None)
  /\ New with_k Init.2 "k" GoChan
       = (Some (ErrEncode "json: unsupported type: chan int"), with_k)
  /\ kind (ErrEncode "json: unsupported type: chan int") <> AlreadyExists.
Proof. repeat split; done. Qed.

Lemma New_encodes_then_checks_witness :
  New with_k Init.2 "k" (GoInt 2) = (Some (ErrKeyAlreadyExists "k"), with_k)
  /\ (exists w', New with_k Init.2 "j" (GoSerializable [x01; x02] None)
                   = (None, w')
        /\ GetRaw w' Init.2 "j" = ([x01; x02], None)).
Proof.
  split.
  - destruct (@New_encodes_then_checks codec with_k Init.2 "k" (GoInt 2))
      as (_ & _ & Hpresent & _).
    by destruct (Hpresent (numeral 2) eq_refl eq_refl).
  - destruct (@New_encodes_then_checks codec with_k Init.2 "j"
                (GoSerializable [x01; x02] None)) as (_ & _ & _ & Habsent).
    destruct (Habsent [x01; x02] eq_refl eq_refl) as (w' & HNew & Hraw & _).
    by exists w'.
Defined.

(** C9, the claim fails: on an absent key, with a value the encoder
    refuses, [Set] returns the encoder's error and not the "does not
    exist" error. *)
Lemma Set_absent_key_encoding_error :
  Has Init.1 Init.2 "k" = (false, None)
  /\ Set_ Init.1 Init.2 "k" GoChan
       = (Some (ErrEncode "json: unsupported type: chan int"), Init.1)
  /\ kind (ErrEncode "json: unsupported type: chan int") <> NotFound.
Proof. repeat split; done. Qed.

Lemma Set_encodes_then_checks_witness :
  Set_ Init.1 Init.2 "k" (GoInt 2) = (Some (ErrKeyNotExists "k"), Init.1)
  /\ (exists w', Set_ with_k Init.2 "k" (GoInt 2) = (None, w')
        /\ GetRaw w' Init.2 "k" = (numeral 2, None)).
Proof.
  split.
  - destruct (@Set_encodes_then_checks codec Init.1 Init.2 "k" (GoInt 2))
      as (_ & Habsent & _).
    by destruct (Habsent (numeral 2) eq_refl eq_refl).
  - destruct (@Set_encodes_then_checks codec with_k Init.2 "k" (GoInt 2))
      as (_ & _ & Hpresent).
    destruct (Hpresent (numeral 2) eq_refl eq_refl) as (w' & HSet & Hraw & _).
    by exists w'.
Defined.

Lemma New_then_Get_round_trip_witness :
  exists w' v', New Init.1 Init.2 "z" (GoInt 9) = (None, w')
    /\ Get w' Init.2 "z" (GoInt 0) = (v', None) /\ v' = GoInt 9.
Proof.
  apply (@New_then_Get_round_trip codec Init.1 Init.2 "z" (GoInt 9) (GoInt 0) eq).
  - reflexivity.
  - exists (numeral 9), (GoInt 9). repeat split; by vm_compute.
Defined.

(** C10, the claim fails in its last part: [News] stores the encoding
    of the whole item under [k], other bytes than [New] stores for the
    value, and yet [Get] with a target shaped like the value, an empty
    struct, returns the value: the decoder skips the members of the
    object that the target has no field for. *)
Lemma Get_after_News_returns_value :
  @News Structs.codec Init.1 Init.2 [Structs.empty_item]
    = (None, Structs.after_News)
  /\ @New Structs.codec Init.1 Init.2 "k" Structs.Empty
       = (None, Structs.after_New)
  /\ @asSerializable Structs.codec Structs.Empty = None
  /\ GetRaw Structs.after_News Init.2 "k"
       = (Structs.marshal (Structs.AnItem "k" Structs.Empty), None)
  /\ GetRaw Structs.after_New Init.2 "k"
       = (Structs.marshal Structs.Empty, None)
  /\ GetRaw Structs.after_News Init.2 "k"
       <> GetRaw Structs.after_New Init.2 "k"
  /\ @Get Structs.codec Structs.after_News Init.2 "k" Structs.Empty
       = (Structs.Empty, None).
Proof. repeat split; done. Qed.

Lemma batch_stores_whole_item_witness :
  let v := item "k" 7 in
  let header := list_byte_of_string "{" ++ quoted "Key"
                ++ list_byte_of_string ":" ++ quoted "k"
                ++ list_byte_of_string "," ++ quoted "Value"
                ++ list_byte_of_string ":" in
  (exists w', News Init.1 Init.2 [v] = (None, w')
     /\ GetRaw w' Init.2 "k"
          = (header ++ numeral 7 ++ list_byte_of_string "}", None)
     /\ forall w0 w2, New w0 Init.2 "k" (GoInt 7) = (None, w2) ->
          GetRaw w2 Init.2 "k" = (numeral 7, None)
          /\ GetRaw w2 Init.2 "k" <> GetRaw w' Init.2 "k")
  /\ (exists w', Sets with_k Init.2 [v] = (None, w')
        /\ GetRaw with_k Init.2 "k" = (numeral 1, None)
        /\ GetRaw w' Init.2 "k"
             = (header ++ numeral 7 ++ list_byte_of_string "}", None)).
Proof.
  intros v header.
  assert (forall j v', (0 < j)%nat -> [v] !! j = Some v' -> Key v' <> Key v)
    as Hlater.
  { intros [|j] v' Hj; [lia|]. by rewrite lookup_cons, lookup_nil. }
  split.
  - assert (view Init.1 (core Init.2) = Some (∅ : Store)) as Hs by done.
    destruct (@batch_stores_whole_item codec Init.1 Init.2 [v] ∅ 0 v Hs
                eq_refl Hlater) as (_ & _ & Hcalls & Hraw & _ & HNew).
    destruct Hcalls as [HNews _]; [repeat constructor|].
    eexists. split; [apply HNews; repeat constructor|].
    split; [exact Hraw|]. apply HNew; [done|].
    exists header, (list_byte_of_string "}"). split; [done|]. by vm_compute.
  - assert (view with_k (core Init.2) = Some (db with_k)) as Hs by done.
    destruct (@batch_stores_whole_item codec with_k Init.2 [v] _ 0 v Hs
                eq_refl Hlater) as (_ & _ & Hcalls & Hraw & _).
    destruct Hcalls as [_ HSets]; [repeat constructor|].
    eexists. split; [apply HSets; repeat constructor|].
    + apply (bool_decide_unpack _). by vm_compute.
    + split; [reflexivity|exact Hraw].
Defined.

Lemma next_until_exhausted_witness :
  let c0 := GetIterator users Init.2 "user:" true in
  (exists item,
     next c0 = (item, true, after_calls 1 c0)
     /\ IterItem.Key item = makeKey "user:2"
     /\ it_released (cursor (after_calls 1 c0)) = false)
  /\ next (after_calls 2 c0) = (IterItem.zero, false, after_calls 3 c0)
  /\ it_released (cursor (after_calls 3 c0)) = true.
Proof.
  intros c0.
  destruct (next_until_exhausted users Init.2 "user:" true (db users) eq_refl)
    as (Hitems & Hend & Hrel & _).
  split; [|split; [exact Hend|exact Hrel]].
  destruct (Hitems 0%nat (makeKey "user:2", (item_encoded (item "user:2" 2)).1))
    as (it & Hnext & Hkey & _ & _ & Hunreleased).
  - by vm_compute.
  - exists it. split; [exact Hnext|]. split; [exact Hkey|exact Hunreleased].
Defined.

Lemma iteration_order_witness :
  let kvs := [("user:1", GoInt 1); ("user:2", GoInt 2); ("other:1", GoInt 3)]
               %string in
  exists w fwd bwd cf cb,
    New_all Init.1 Init.2 kvs = (None, w)
    /\ drain 4 (GetIterator w Init.2 "user:" false) = (fwd, true, cf)
    /\ drain 4 (GetIterator w Init.2 "user:" true) = (bwd, true, cb)
    /\ IterItem.Key <$> fwd
         ≡ₚ filter (fun key => has_prefix (makeKey "user:") key = true)
              (makeKey <$> kvs.*1)
    /\ StronglySorted bytes_lt (IterItem.Key <$> fwd)
    /\ IterItem.Key <$> bwd = reverse (IterItem.Key <$> fwd)
    /\ StronglySorted (flip bytes_lt) (IterItem.Key <$> bwd).
Proof.
  intros kvs.
  destruct (@iteration_order codec kvs "user:")
    as (w & fwd & bwd & cf & cb & H1 & H2 & H3 & H4 & H5 & H6 & H7 & _).
  - apply (bool_decide_unpack _). by vm_compute.
  - repeat constructor.
  - exists w, fwd, bwd, cf, cb. repeat split; assumption.
Defined.

Lemma sequence_numbers_witness :
  (forall reverse_ calls,
     StronglySorted Z.lt
       (IterItem.N <$> run calls (GetIterator users Init.2 "user:" reverse_)))
  /\ IterItem.N <$> run [CallNext; CallNext]
                      (GetIterator users Init.2 "user:" false) = [1; 2]
  /\ IterItem.N <$> run [CallNext; CallNext]
                      (GetIterator users Init.2 "user:" true) = [0; 1]
  /\ (exists item_f c_f item_r c_r,
        next (GetIterator users Init.2 "user:" false) = (item_f, true, c_f)
        /\ IterItem.N item_f = 1
        /\ next (GetIterator users Init.2 "user:" true) = (item_r, true, c_r)
        /\ IterItem.N item_r = 0
        /\ IterItem.N item_f <> IterItem.N item_r).
Proof.
  destruct (sequence_numbers users Init.2 "user:" (db users))
    as (Hsorted & Hrun & Hfirst & _).
  - reflexivity.
  - by vm_compute.
  - split; [exact Hsorted|].
    split; [exact (Hrun false)|]. split; [exact (Hrun true)|].
    apply Hfirst. by vm_compute.
Defined.

(** * Further properties of the backend *)

(** ** Reads *)

(** X1. [GetRaw] returns the stored bytes without error exactly where
    [Has] reports the key, and returns nil with the "does not exist"
    error everywhere else. *)
Theorem GetRaw_follows_Has (w : World) (st : LevelDBBackend) (k : string) :
  ((GetRaw w st k).2 = None <-> Has w st k = (true, None))
  /\ ((GetRaw w st k).2 <> None ->
        GetRaw w st k = ([], Some (ErrKeyNotExists k)))
  /\ (forall s b, view w (core st) = Some s -> s !! makeKey k = Some b ->
        GetRaw w st k = (b, None)).
Proof.
  unfold GetRaw, Has, coreHas, coreGet.
  destruct (view w (core st)) as [s|] eqn:Hs; simpl.
  - destruct (s !! makeKey k) as [b|] eqn:Hk.
    + rewrite bool_decide_eq_true_2 by eauto. simpl.
      split; [done|]. split; [done|]. intros ? ? [= <-] Hb. congruence.
    + rewrite bool_decide_eq_false_2 by (by intros [? ?]). simpl.
      split; [split; discriminate|]. split; [done|].
      intros ? ? [= <-] Hb. congruence.
  - split; [split; discriminate|]. split; [done|]. discriminate.
Qed.

Lemma GetRaw_follows_Has_witness :
  GetRaw with_k Init.2 "k" = (numeral 1, None).
Proof.
  destruct (GetRaw_follows_Has with_k Init.2 "k") as (_ & _ & Hstored).
  apply (Hstored (db with_k)); [reflexivity|by vm_compute].
Defined.

Section Reads.
Context `{Codec}.

(** X2. On an absent key [Get] fails with the "does not exist" error and
    leaves the target as it was, without consulting the decoder; on a
    present key it returns what the decoder leaves in the target, and the
    decoder's error if it fails. *)
Theorem Get_errors (w : World) (st : LevelDBBackend) (k : string) (i : Any) :
  (Has w st k = (false, None) ->
     Get w st k i = (i, Some (ErrKeyNotExists k)))
  /\ (forall b, GetRaw w st k = (b, None) ->
        forall i' msg, Unmarshal b i = (i', Some msg) ->
        Get w st k i = (i', Some (ErrDecode msg)))
  /\ (forall b, GetRaw w st k = (b, None) ->
        forall i', Unmarshal b i = (i', None) -> Get w st k i = (i', None)).
Proof.
  split; [|split].
  - intros Hk. unfold Get, GetRaw. by rewrite Hk.
  - intros b Hraw i' msg Hdec. by rewrite (Get_GetRaw _ _ _ _ _ Hraw), Hdec.
  - intros b Hraw i' Hdec. by rewrite (Get_GetRaw _ _ _ _ _ Hraw), Hdec.
Qed.

(** X3. When the existence check itself fails in the engine ([Has]
    returns [false] with an error), [GetRaw], [Get], [Set], [Remove] and
    [Sets] replace the engine's error by their "does not exist" or "not
    found" error, while [New] and [News] return the engine's error; none
    of them changes the world. *)
Theorem existence_check_error (w : World) (st : LevelDBBackend) (k : string)
    (e : error) :
  Has w st k = (false, Some e) ->
  GetRaw w st k = ([], Some (ErrKeyNotExists k))
  /\ (forall i, Get w st k i = (i, Some (ErrKeyNotExists k)))
  /\ Remove w st k = (Some (ErrKeyNotExists k), w)
  /\ (forall v b, EncodeJSONValue v = (b, None) ->
        Set_ w st k v = (Some (ErrKeyNotExists k), w))
  /\ (forall v b, New_encoded v = (b, None) -> New w st k v = (Some e, w))
  /\ (forall v vs, Key v = k ->
        News w st (v :: vs) = (Some e, w)
        /\ Sets w st (v :: vs) = (Some (ErrNotFoundKey k), w)).
Proof.
  intros Hk. repeat split.
  - unfold GetRaw. by rewrite Hk.
  - intros i. unfold Get, GetRaw. by rewrite Hk.
  - unfold Remove. by rewrite Hk.
  - intros v b Hv. unfold Set_. by rewrite Hv, Hk.
  - intros v b Hv. unfold New. fold (New_encoded v). by rewrite Hv, Hk.
  - subst k. unfold News. cbn [length Nat.ltb Nat.leb News_check].
    by rewrite Hk.
  - subst k. unfold Sets. cbn [length Nat.ltb Nat.leb Sets_check].
    by rewrite Hk.
Qed.

End Reads.

Lemma Get_errors_witness :
  Get Init.1 Init.2 "k" (GoInt 0) = (GoInt 0, Some (ErrKeyNotExists "k"))
  /\ exists msg, Get with_k Init.2 "k" GoChan = (GoChan, Some (ErrDecode msg)).
Proof.
  destruct (@Get_errors codec Init.1 Init.2 "k" (GoInt 0)) as (Habsent & _).
  split; [by apply Habsent|].
  destruct (@Get_errors codec with_k Init.2 "k" GoChan) as (_ & Hfail & _).
  eexists. apply (Hfail (numeral 1)); reflexivity.
Defined.

Lemma existence_check_error_witness :
  GetRaw discarded tx0 "k" = ([], Some (ErrKeyNotExists "k"))
  /\ New discarded tx0 "k" (GoInt 1)
       = (Some (ErrLevelDB ErrTransactionDone), discarded)
  /\ Sets discarded tx0 [item "k" 1] = (Some (ErrNotFoundKey "k"), discarded).
Proof.
  destruct (@existence_check_error codec discarded tx0 "k"
              (ErrLevelDB ErrTransactionDone) eq_refl)
    as (Hraw & _ & _ & _ & HNew & Hbatch).
  split; [exact Hraw|]. split; [by apply (HNew (GoInt 1) (numeral 1))|].
  by destruct (Hbatch (item "k" 1) [] eq_refl).
Defined.

(** ** Removal *)

Lemma set_view_id w c s : view w c = Some s -> set_view w c s = w.
Proof.
  destruct w as [d txs], c as [|id]; simpl; [by intros [= ->]|].
  destruct (txs !! id) as [[ts closed]|] eqn:Htr; [|done].
  simpl. destruct closed; [done|]. intros [= ->].
  by rewrite list_insert_id.
Qed.

Lemma Remove_present w st k s :
  view w (core st) = Some s -> is_Some (s !! makeKey k) ->
  Remove w st k = (None, set_view w (core st) (delete (makeKey k) s)).
Proof.
  intros Hs Hk. unfold Remove. rewrite (Has_view _ _ _ _ Hs).
  rewrite bool_decide_eq_true_2 by done. simpl.
  unfold coreDelete. by rewrite Hs.
Qed.

(** X4. [Remove] on an absent key fails with the "does not exist" error
    and changes nothing; on a present key it deletes that key, which
    [Has] and [GetRaw] no longer find, and leaves every other key as it
    was. *)
Theorem Remove_deletes_one_key (w : World) (st : LevelDBBackend) (k : string) :
  (Has w st k = (false, None) ->
     Remove w st k = (Some (ErrKeyNotExists k), w))
  /\ (Has w st k = (true, None) ->
        exists w', Remove w st k = (None, w')
          /\ Has w' st k = (false, None)
          /\ GetRaw w' st k = ([], Some (ErrKeyNotExists k))
          /\ forall k', k' <> k ->
               Has w' st k' = Has w st k' /\ GetRaw w' st k' = GetRaw w st k').
Proof.
  split.
  - intros Hk. unfold Remove. by rewrite Hk.
  - intros Hk. destruct (Has_true_inv _ _ _ Hk) as (s & Hs & Hsome).
    eexists. split; [by apply Remove_present|].
    pose proof (view_set_view _ _ _ (delete (makeKey k) s) Hs) as Hs'.
    rewrite (Has_view _ _ _ _ Hs'), (GetRaw_view _ _ _ _ Hs').
    rewrite lookup_delete_eq.
    split; [by rewrite bool_decide_eq_false_2 by (by intros [? ?])|].
    split; [done|]. intros k' Hne.
    rewrite (Has_view _ _ _ _ Hs'), (GetRaw_view _ _ _ _ Hs').
    rewrite (Has_view _ _ _ _ Hs), (GetRaw_view _ _ _ _ Hs).
    rewrite lookup_delete_ne; [done|].
    intros Heq. by apply makeKey_inj in Heq.
Qed.

Lemma Remove_deletes_one_key_witness :
  Remove Init.1 Init.2 "k" = (Some (ErrKeyNotExists "k"), Init.1)
  /\ exists w', Remove with_k Init.2 "k" = (None, w')
       /\ Has w' Init.2 "k" = (false, None).
Proof.
  split.
  - destruct (Remove_deletes_one_key Init.1 Init.2 "k") as [Habsent _].
    by apply Habsent.
  - destruct (Remove_deletes_one_key with_k Init.2 "k") as [_ Hpresent].
    destruct Hpresent as (w' & HRemove & HHas & _); [reflexivity|].
    by exists w'.
Defined.

Section Composition.
Context `{Codec}.

(** X5. On an absent key, with a value that encodes, [New] followed by
    [Remove] of the same key succeeds twice and gives back the world it
    started from. *)
Theorem New_then_Remove (w : World) (st : LevelDBBackend) (k : string)
    (v : Any) (b : bytes) :
  Has w st k = (false, None) ->
  New_encoded v = (b, None) ->
  exists w1, New w st k v = (None, w1) /\ Remove w1 st k = (None, w).
Proof.
  intros Hk Hv.
  destruct (Has_false_inv _ _ _ Hk) as (s & Hs & Habs).
  destruct (New_absent _ _ _ _ _ Hv Hk) as (s0 & Hs0 & HNew).
  rewrite Hs in Hs0. injection Hs0 as <-.
  eexists. split; [exact HNew|].
  rewrite (Remove_present _ _ _ (<[makeKey k := b]> s)).
  - rewrite set_view_set_view, delete_insert_id by done.
    by rewrite set_view_id.
  - by eapply view_set_view.
  - rewrite lookup_insert_eq. eauto.
Qed.

(** X6. After [New] has created a key, a second [New] on it fails with
    the "already exists" error whatever value it is given (provided the
    value encodes) and the bytes of the first value stay. *)
Theorem New_twice (w : World) (st : LevelDBBackend) (k : string)
    (v v2 : Any) (b b2 : bytes) :
  Has w st k = (false, None) ->
  New_encoded v = (b, None) ->
  New_encoded v2 = (b2, None) ->
  exists w1, New w st k v = (None, w1)
    /\ New w1 st k v2 = (Some (ErrKeyAlreadyExists k), w1)
    /\ GetRaw w1 st k = (b, None).
Proof.
  intros Hk Hv Hv2.
  destruct (New_absent _ _ _ _ _ Hv Hk) as (s & Hs & HNew).
  eexists. split; [exact HNew|].
  pose proof (view_set_view _ _ _ (<[makeKey k := b]> s) Hs) as Hs'.
  assert (GetRaw (set_view w (core st) (<[makeKey k := b]> s)) st k
            = (b, None)) as Hraw.
  { rewrite (GetRaw_view _ _ _ _ Hs'). by rewrite lookup_insert_eq. }
  split; [|done].
  apply (New_present _ _ _ _ b2 Hv2).
  rewrite (Has_view _ _ _ _ Hs'), lookup_insert_eq.
  by rewrite bool_decide_eq_true_2 by eauto.
Qed.

Lemma apply_batch_other (batch : Batch) (s : Store) (key : bytes) :
  key ∉ batch.*1 -> apply_batch batch s !! key = s !! key.
Proof.
  induction batch as [|kv batch IH] using rev_ind; [done|].
  rewrite fmap_app, not_elem_of_app, apply_batch_snoc.
  intros [Hbatch Hkv]. rewrite lookup_insert_ne; [by apply IH|].
  intros Heq. apply Hkv. simpl. rewrite Heq. by apply list_elem_of_singleton.
Qed.

(** X7. [News] does not look for a key that occurs twice in its list:
    when the key is absent and both items encode, the call succeeds and
    the key holds the encoding of the later item. *)
Theorem News_repeated_key (w : World) (st : LevelDBBackend) (v1 v2 : Item) :
  Has w st (Key v1) = (false, None) ->
  Key v2 = Key v1 ->
  (item_encoded v1).2 = None ->
  (item_encoded v2).2 = None ->
  exists w', News w st [v1; v2] = (None, w')
    /\ GetRaw w' st (Key v1) = ((item_encoded v2).1, None).
Proof.
  intros Hk Hsame Henc1 Henc2.
  destruct (Has_false_inv _ _ _ Hk) as (s & Hs & Habs).
  assert (News w st [v1; v2]
            = coreWrite w (core st) (batch_of [v1; v2])) as HNews.
  { apply (News_writes _ _ _ s Hs); [done| |]; repeat constructor;
      try done. by rewrite Hsame. }
  rewrite (coreWrite_view _ _ _ _ Hs) in HNews.
  eexists. split; [exact HNews|].
  rewrite <- Hsame.
  apply (GetRaw_after_batch _ _ _ _ 1 v2 Hs); [done|].
  intros [|[|j]] v' Hj; try lia. by rewrite !lookup_cons, lookup_nil.
Qed.

(** X8. A [News] or a [Sets] that succeeds leaves every key that is not
    a key of its list as it was. *)
Theorem batch_touches_listed_keys (w w' : World) (st : LevelDBBackend)
    (vs : list Item) (k : string) :
  News w st vs = (None, w') \/ Sets w st vs = (None, w') ->
  k ∉ Key <$> vs ->
  Has w' st k = Has w st k /\ GetRaw w' st k = GetRaw w st k.
Proof.
  intros Hcall Hk.
  destruct (view w (core st)) as [s|] eqn:Hs.
  - assert (w' = set_view w (core st) (apply_batch (batch_of vs) s)) as ->.
    { destruct Hcall as [Hcall|Hcall].
      - by destruct (News_success_inv _ _ _ _ _ Hs Hcall).
      - by destruct (Sets_success_inv _ _ _ _ _ Hs Hcall). }
    pose proof (view_set_view _ _ _ (apply_batch (batch_of vs) s) Hs) as Hs'.
    rewrite (Has_view _ _ _ _ Hs'), (GetRaw_view _ _ _ _ Hs').
    rewrite (Has_view _ _ _ _ Hs), (GetRaw_view _ _ _ _ Hs).
    rewrite apply_batch_other; [done|].
    unfold batch_of. rewrite <- list_fmap_compose.
    intros Hin. apply Hk. apply list_elem_of_fmap in Hin as (v & Heq & Hv).
    simpl in Heq. apply makeKey_inj in Heq as ->.
    by apply list_elem_of_fmap_2.
  - exfalso. destruct Hcall as [Hcall|Hcall].
    + unfold News in Hcall. destruct vs as [|v vs]; [discriminate|].
      cbn [length Nat.ltb Nat.leb News_check] in Hcall.
      unfold Has, coreHas in Hcall. by rewrite Hs in Hcall.
    + unfold Sets in Hcall. destruct vs as [|v vs]; [discriminate|].
      cbn [length Nat.ltb Nat.leb Sets_check] in Hcall.
      unfold Has, coreHas in Hcall. by rewrite Hs in Hcall.
Qed.

End Composition.

Lemma New_then_Remove_witness :
  exists w1, New with_k Init.2 "j" (GoInt 2) = (None, w1)
    /\ Remove w1 Init.2 "j" = (None, with_k).
Proof.
  apply (@New_then_Remove codec with_k Init.2 "j" (GoInt 2) (numeral 2));
    reflexivity.
Defined.

Lemma New_twice_witness :
  exists w1, New Init.1 Init.2 "k" (GoInt 1) = (None, w1)
    /\ New w1 Init.2 "k" (GoInt 2) = (Some (ErrKeyAlreadyExists "k"), w1)
    /\ GetRaw w1 Init.2 "k" = (numeral 1, None).
Proof.
  apply (@New_twice codec Init.1 Init.2 "k" (GoInt 1) (GoInt 2)
           (numeral 1) (numeral 2)); reflexivity.
Defined.

Lemma News_repeated_key_witness :
  exists w', News Init.1 Init.2 [item "x" 1; item "x" 2] = (None, w')
    /\ GetRaw w' Init.2 "x" = ((item_encoded (item "x" 2)).1, None).
Proof.
  apply (@News_repeated_key codec Init.1 Init.2 (item "x" 1) (item "x" 2));
    reflexivity.
Defined.

Lemma batch_touches_listed_keys_witness :
  Has users Init.2 "k" = Has Init.1 Init.2 "k"
  /\ GetRaw users Init.2 "k" = GetRaw Init.1 Init.2 "k".
Proof.
  apply (@batch_touches_listed_keys codec Init.1 users Init.2
           [item "user:1" 1; item "user:2" 2; item "other:1" 3] "k").
  - by left.
  - apply (bool_decide_unpack _). by vm_compute.
Defined.

(** ** Transactions and the root *)

Lemma root_reads w w' k :
  db w' = db w ->
  Has w' {| core := CoreDB |} k = Has w {| core := CoreDB |} k
  /\ GetRaw w' {| core := CoreDB |} k = GetRaw w {| core := CoreDB |} k.
Proof.
  intros Hdb. unfold GetRaw, Has, coreHas, coreGet. simpl. by rewrite Hdb.
Qed.

Lemma view_fresh_transaction w :
  view (dbOpenTransaction w).2 (CoreTransaction (length (transactions w)))
    = Some (db w).
Proof. simpl. by rewrite list_lookup_middle. Qed.

(** X9. In a world where no transaction is open (the engine makes the
    call wait otherwise), [OpenTransaction] on a root handle succeeds:
    the handle it returns is a transaction, one reads through it what
    the root holds at that time, and the root reads what it read
    before. *)
Theorem OpenTransaction_on_root (w : World) :
  let st := {| core := CoreDB |} in
  Forall (fun tr => tr_closed tr = true) (transactions w) ->
  exists tx w',
    OpenTransaction w st = (Some tx, None, w')
    /\ core tx = CoreTransaction (length (transactions w))
    /\ (forall k, Has w' tx k = Has w st k /\ GetRaw w' tx k = GetRaw w st k)
    /\ (forall k, Has w' st k = Has w st k /\ GetRaw w' st k = GetRaw w st k)
    /\ OpenTransaction w' tx = (None, Some ErrAlreadyTransaction, w').
Proof.
  intros st _.
  exists {| core := CoreTransaction (length (transactions w)) |},
    (dbOpenTransaction w).2.
  split; [reflexivity|]. split; [done|].
  split; [|split].
  - intros k. unfold GetRaw, Has, coreHas, coreGet. cbn [core].
    by rewrite (view_fresh_transaction w).
  - intros k. by apply root_reads.
  - done.
Qed.

Lemma OpenTransaction_on_root_witness :
  exists tx w',
    OpenTransaction discarded Init.2 = (Some tx, None, w')
    /\ core tx = CoreTransaction 1
    /\ (forall k, Has w' tx k = Has discarded Init.2 k
                  /\ GetRaw w' tx k = GetRaw discarded Init.2 k)
    /\ (forall k, Has w' Init.2 k = Has discarded Init.2 k
                  /\ GetRaw w' Init.2 k = GetRaw discarded Init.2 k)
    /\ OpenTransaction w' tx = (None, Some ErrAlreadyTransaction, w').
Proof.
  apply (OpenTransaction_on_root discarded). by repeat constructor.
Defined.

Section Isolation.
Context `{Codec}.

Lemma exec_world w st op :
  (exec w st op).2 = w
  \/ exists s s', view w (core st) = Some s
       /\ (exec w st op).2 = set_view w (core st) s'.
Proof.
  destruct op as [k v|k v|k|vs|vs]; simpl;
    unfold New, Set_, Remove, News, Sets, corePut, coreWrite, coreDelete;
    repeat case_match; simplify_eq; simpl; eauto.
Qed.

Lemma exec_transaction_db w id op :
  db (exec w {| core := CoreTransaction id |} op).2 = db w.
Proof.
  destruct (exec_world w {| core := CoreTransaction id |} op)
    as [->|(s & s' & _ & ->)]; done.
Qed.

Lemma exec_all_transaction_db w id ops :
  db (exec_all w {| core := CoreTransaction id |} ops) = db w.
Proof.
  revert w. induction ops as [|op ops IH]; intros w; [done|].
  simpl. by rewrite IH, exec_transaction_db.
Qed.

Lemma trDiscard_db w id : db (trDiscard w id) = db w.
Proof. unfold trDiscard. by repeat case_match. Qed.

(** X10. Whatever writes are issued through a transaction handle, in any
    number and order, the root reads what it read before them; and it
    still does after the transaction is discarded. *)
Theorem transaction_isolation (w : World) (id : nat) (ops : list Op)
    (k : string) :
  let tx := {| core := CoreTransaction id |} in
  let st := {| core := CoreDB |} in
  let w' := exec_all w tx ops in
  Has w' st k = Has w st k
  /\ GetRaw w' st k = GetRaw w st k
  /\ Has (Discard w' tx).2 st k = Has w st k
  /\ GetRaw (Discard w' tx).2 st k = GetRaw w st k.
Proof.
  intros tx st w'.
  assert (db w' = db w) as Hdb by apply exec_all_transaction_db.
  destruct (root_reads w w' k Hdb) as [HHas Hraw].
  split; [done|]. split; [done|].
  apply (root_reads w (Discard w' tx).2 k).
  simpl. by rewrite trDiscard_db.
Qed.

Lemma trCommit_success_inv w id w' :
  trCommit w id = (None, w') ->
  exists s, view w (CoreTransaction id) = Some s /\ db w' = s.
Proof.
  unfold trCommit. simpl.
  destruct (transactions w !! id) as [[ts closed]|]; [|discriminate].
  simpl. destruct closed; [discriminate|].
  intros [= <-]. by exists ts.
Qed.

Lemma GetRaw_after_Commit w w' id k :
  trCommit w id = (None, w') ->
  GetRaw w' {| core := CoreDB |} k = GetRaw w {| core := CoreTransaction id |} k.
Proof.
  intros Hcommit.
  destruct (trCommit_success_inv _ _ _ Hcommit) as (s & Hs & Hdb).
  rewrite (GetRaw_view w' {| core := CoreDB |} k s) by (simpl; by rewrite Hdb).
  by rewrite (GetRaw_view w {| core := CoreTransaction id |} k s).
Qed.

(** X11. After a [Commit] that returns no error, the root reads exactly
    what the transaction read just before it. *)
Theorem Commit_publishes (w w' : World) (id : nat) (k : string) :
  let tx := {| core := CoreTransaction id |} in
  let st := {| core := CoreDB |} in
  Commit w tx = (None, w') ->
  Has w' st k = Has w tx k /\ GetRaw w' st k = GetRaw w tx k.
Proof.
  intros tx st Hcommit.
  destruct (trCommit_success_inv _ _ _ Hcommit) as (s & Hs & Hdb).
  assert (view w' (core st) = Some s) as Hs' by (simpl; by rewrite Hdb).
  rewrite (Has_view _ _ _ _ Hs'), (GetRaw_view _ _ _ _ Hs').
  by rewrite (Has_view w tx _ _ Hs), (GetRaw_view w tx _ _ Hs).
Qed.

(** X12. A key created through a transaction: in a world where no
    transaction is open, with the key absent at the root and a value
    that encodes, [OpenTransaction], then [New] through
    the transaction, succeed; the root does not hold the key yet; after
    [Commit] the root holds the encoded bytes under the key and every
    other key as before; after [Discard] instead, the root still does not
    hold the key. *)
Theorem New_in_transaction (w : World) (k : string) (v : Any) (b : bytes) :
  let st := {| core := CoreDB |} in
  Forall (fun tr => tr_closed tr = true) (transactions w) ->
  Has w st k = (false, None) ->
  New_encoded v = (b, None) ->
  exists tx w1 w2 w3,
    OpenTransaction w st = (Some tx, None, w1)
    /\ New w1 tx k v = (None, w2)
    /\ GetRaw w2 tx k = (b, None)
    /\ Has w2 st k = (false, None)
    /\ Commit w2 tx = (None, w3)
    /\ GetRaw w3 st k = (b, None)
    /\ (forall k', k' <> k -> GetRaw w3 st k' = GetRaw w st k')
    /\ Has (Discard w2 tx).2 st k = (false, None).
Proof.
  intros st _ Hk Hv. subst st.
  set (tx := {| core := CoreTransaction (length (transactions w)) |}).
  set (w1 := (dbOpenTransaction w).2).
  assert (view w1 (core tx) = Some (db w)) as Hs1
    by apply view_fresh_transaction.
  destruct (Has_false_inv _ _ _ Hk) as (s & Hs & Habs).
  simpl in Hs. injection Hs as <-.
  assert (Has w1 tx k = (false, None)) as Hk1.
  { rewrite (Has_view _ _ _ _ Hs1), Habs.
    by rewrite bool_decide_eq_false_2 by (by intros [? ?]). }
  destruct (New_absent _ _ _ _ _ Hv Hk1) as (s1 & Hs1' & HNew).
  rewrite Hs1 in Hs1'. injection Hs1' as <-.
  set (w2 := set_view w1 (core tx) (<[makeKey k := b]> (db w))) in *.
  assert (view w2 (core tx) = Some (<[makeKey k := b]> (db w))) as Hs2
    by (by eapply view_set_view).
  assert (forall k', GetRaw w2 tx k'
            = if decide (k = k') then (b, None) else GetRaw w {| core := CoreDB |} k') as Hraw2.
  { intros k'. unfold w2. rewrite (GetRaw_after_put _ _ _ _ _ _ Hs1).
    case_decide; [done|]. rewrite (GetRaw_view _ _ _ _ Hs1).
    by rewrite (GetRaw_view w {| core := CoreDB |} k' (db w)). }
  assert (db w2 = db w) as Hdb2 by done.
  destruct (Commit w2 tx) as [err w3] eqn:Hcommit.
  assert (err = None) as ->.
  { unfold Commit, trCommit in Hcommit. simpl in Hcommit.
    rewrite list_lookup_insert_eq in Hcommit.
    - simpl in Hcommit. by injection Hcommit as <- _.
    - rewrite length_app. simpl. lia. }
  exists tx, w1, w2, w3. split; [done|]. split; [exact HNew|].
  split; [by rewrite Hraw2, decide_True|].
  split; [by rewrite (proj1 (root_reads w w2 k Hdb2))|].
  split; [done|].
  split; [|split].
  - rewrite (GetRaw_after_Commit w2 w3 _ k Hcommit).
    fold tx. by rewrite Hraw2, decide_True.
  - intros k' Hne. rewrite (GetRaw_after_Commit w2 w3 _ k' Hcommit).
    fold tx. by rewrite Hraw2, decide_False.
  - assert (db (Discard w2 tx).2 = db w) as Hdb4
      by (simpl; by rewrite trDiscard_db).
    by rewrite (proj1 (root_reads w (Discard w2 tx).2 k Hdb4)).
Qed.

Lemma view_closed w id :
  (forall tr, transactions w !! id = Some tr -> tr_closed tr = true) ->
  view w (CoreTransaction id) = None.
Proof.
  intros Hclosed. simpl.
  destruct (transactions w !! id) as [tr|]; [|done].
  by rewrite (Hclosed tr eq_refl).
Qed.

(** X13. Once [Commit] or [Discard] has returned without error on a
    transaction handle, the handle is dead: [Has] through it returns the
    engine's "transaction closed" error, every write through it returns
    an error and changes nothing, and an iterator obtained through it
    has no record to return. *)
Theorem terminated_handle (w w' : World) (id : nat) :
  let tx := {| core := CoreTransaction id |} in
  Commit w tx = (None, w') \/ Discard w tx = (None, w') ->
  (forall k, Has w' tx k = (false, Some (ErrLevelDB ErrTransactionDone)))
  /\ (forall op, (exec w' tx op).1 <> None /\ (exec w' tx op).2 = w')
  /\ (forall prefix reverse_,
        exists c,
          next (GetIterator w' tx prefix reverse_) = (IterItem.zero, false, c)).
Proof.
  intros tx Hfirst.
  assert (view w' (core tx) = None) as Hview.
  { apply view_closed. destruct Hfirst as [Hc|Hd].
    - intros tr. by apply (trCommit_closed w id w').
    - injection Hd as <-. intros tr. apply trDiscard_closed. }
  assert (forall k, Has w' tx k = (false, Some (ErrLevelDB ErrTransactionDone)))
    as HHas.
  { intros k. unfold Has, coreHas. by rewrite Hview. }
  split; [done|]. split.
  - intros [k v|k v|k|[|v0 vs]|[|v0 vs]]; simpl;
      unfold New, Set_, Remove, News, Sets;
      cbn [length Nat.ltb Nat.leb News_check Sets_check];
      rewrite ?HHas; simpl; try done.
    + destruct (match asSerializable v with
                | Some serialized => serialized
                | None => EncodeJSONValue v
                end) as [encoded [msg|]]; by simpl.
    + destruct (EncodeJSONValue v) as [encoded [msg|]]; by simpl.
  - intros prefix reverse_. unfold GetIterator, coreNewIterator.
    rewrite Hview. destruct reverse_; by eexists.
Qed.

End Isolation.

Lemma Commit_publishes_witness :
  let w := (New (OpenTransaction Init.1 Init.2).2 tx0 "z" (GoInt 9)).2 in
  let w' := (Commit w tx0).2 in
  Has w' Init.2 "z" = Has w tx0 "z"
  /\ GetRaw w' Init.2 "z" = GetRaw w tx0 "z".
Proof.
  intros w w'. apply (Commit_publishes w w' 0 "z"). reflexivity.
Defined.

Lemma New_in_transaction_witness :
  exists tx w1 w2 w3,
    OpenTransaction Init.1 Init.2 = (Some tx, None, w1)
    /\ New w1 tx "z" (GoInt 9) = (None, w2)
    /\ GetRaw w2 tx "z" = (numeral 9, None)
    /\ Has w2 Init.2 "z" = (false, None)
    /\ Commit w2 tx = (None, w3)
    /\ GetRaw w3 Init.2 "z" = (numeral 9, None)
    /\ (forall k', k' <> "z"%string ->
          GetRaw w3 Init.2 k' = GetRaw Init.1 Init.2 k')
    /\ Has (Discard w2 tx).2 Init.2 "z" = (false, None).
Proof.
  apply (@New_in_transaction codec Init.1 "z" (GoInt 9) (numeral 9));
    [constructor|reflexivity|reflexivity].
Defined.

Lemma terminated_handle_witness :
  (forall k, Has discarded tx0 k = (false, Some (ErrLevelDB ErrTransactionDone)))
  /\ (forall op, (exec discarded tx0 op).1 <> None
                 /\ (exec discarded tx0 op).2 = discarded)
  /\ (forall prefix reverse_,
        exists c,
          next (GetIterator discarded tx0 prefix reverse_)
            = (IterItem.zero, false, c)).
Proof.
  apply (@terminated_handle codec (OpenTransaction Init.1 Init.2).2
           discarded 0).
  right. reflexivity.
Defined.

(** ** Releasing and draining *)

Lemma next_nothing_unsent c :
  match c with NoClosures it => it_released it = true | _ => True end ->
  nothing_unsent (next c).2.
Proof.
  destruct c as [it|it f [|] n]; simpl; [done|done|].
  intros _. by destruct (callFuncNext f it) as [[|] it'].
Qed.

Lemma GetIterator_early_return w st prefix reverse_ :
  match GetIterator w st prefix reverse_ with
  | NoClosures it => it_released it = true
  | _ => True
  end.
Proof.
  unfold GetIterator. destruct reverse_; [|done].
  by destruct (iterLast _) as [[|] it].
Qed.

Lemma after_calls_early_return w st prefix reverse_ i :
  match after_calls i (GetIterator w st prefix reverse_) with
  | NoClosures it => it_released it = true
  | _ => True
  end.
Proof.
  induction i as [|i IH]; [apply GetIterator_early_return|].
  change (after_calls (S i) (GetIterator w st prefix reverse_))
    with (next (after_calls i (GetIterator w st prefix reverse_))).2.
  pose proof (next_nothing_unsent _ IH) as Hsent.
  by destruct (next _).2.
Qed.

Lemma after_calls_nothing_unsent w st prefix reverse_ i :
  reverse_ = false \/ (0 < i)%nat ->
  nothing_unsent (after_calls i (GetIterator w st prefix reverse_)).
Proof.
  destruct i as [|i].
  - intros [->|Hi]; [done|lia].
  - intros _.
    change (after_calls (S i) (GetIterator w st prefix reverse_))
      with (next (after_calls i (GetIterator w st prefix reverse_))).2.
    apply next_nothing_unsent, after_calls_early_return.
Qed.

(** X14. [release] ends an iteration at any point: after any number of
    calls of [next] (at least one when the iteration is a reverse one),
    once [release] is called the cursor is released, every [next]
    returns the zero item with [false], and a second [release] changes
    nothing. *)
Theorem release_ends_iteration (w : World) (st : LevelDBBackend)
    (prefix : string) (reverse_ : bool) (i : nat) :
  reverse_ = false \/ (0 < i)%nat ->
  let c := release (after_calls i (GetIterator w st prefix reverse_)) in
  it_released (cursor c) = true
  /\ next c = (IterItem.zero, false, c)
  /\ release c = c.
Proof.
  intros Hi c. subst c.
  pose proof (after_calls_nothing_unsent w st prefix reverse_ i Hi) as Hsent.
  destruct (after_calls i _) as [it|it f u n]; simpl in *.
  - done.
  - subst u. by destruct f.
Qed.

Lemma release_ends_iteration_witness :
  let c := release (after_calls 1 (GetIterator users Init.2 "user:" true)) in
  it_released (cursor c) = true
  /\ next c = (IterItem.zero, false, c)
  /\ release c = c.
Proof.
  apply (release_ends_iteration users Init.2 "user:" true 1). right. lia.
Defined.

(** X15. In a reverse iteration over a range that is not empty, calling
    [release] before the first [next] does not end the iteration at
    once: the first [next] still returns [true], with the zero item (the
    released cursor shows no key and no value); the [next] after it
    returns [false]. *)
Theorem release_before_first_next (w : World) (st : LevelDBBackend)
    (prefix : string) (s : Store) :
  view w (core st) = Some s ->
  records s
    (if (0 <? String.length prefix)%nat
     then Some (BytesPrefix (makeKey prefix)) else None) <> [] ->
  exists c',
    next (release (GetIterator w st prefix true)) = (IterItem.zero, true, c')
    /\ next c' = (IterItem.zero, false, c').
Proof.
  intros Hs Hne. rewrite (GetIterator_view _ _ _ _ _ Hs).
  destruct (records s _) as [|kv recs]; [done|].
  eexists. split; reflexivity.
Qed.

Lemma release_before_first_next_witness :
  exists c',
    next (release (GetIterator users Init.2 "user:" true))
      = (IterItem.zero, true, c')
    /\ next c' = (IterItem.zero, false, c').
Proof.
  apply (release_before_first_next users Init.2 "user:" (db users)).
  - reflexivity.
  - by vm_compute.
Defined.

(** X16. Draining an iterator obtained through any usable handle ends
    within one call more than the handle's keyspace has records, and the
    items returned are the records of that keyspace whose key has the
    prefix: each such key once, with the value stored under it, and
    nothing else. *)
Theorem iteration_returns_the_records (w : World) (st : LevelDBBackend)
    (prefix : string) (reverse_ : bool) (s : Store) :
  view w (core st) = Some s ->
  exists items c,
    drain (S (size s)) (GetIterator w st prefix reverse_) = (items, true, c)
    /\ it_released (cursor c) = true
    /\ NoDup (IterItem.Key <$> items)
    /\ forall key value,
         (exists item, item ∈ items /\ IterItem.Key item = key
                       /\ IterItem.Value item = value)
         <-> s !! key = Some value
             /\ has_prefix (makeKey prefix) key = true.
Proof.
  intros Hs.
  set (range := if (0 <? String.length prefix)%nat
                then Some (BytesPrefix (makeKey prefix)) else None).
  set (recs := records s range).
  pose proof (yields_GetIterator w st prefix reverse_ s Hs) as Hy.
  fold range recs in Hy.
  pose proof (session_items_records reverse_ recs) as Hrecs.
  pose proof (session_items_keys reverse_ recs) as Hkeys.
  assert (length (session_items reverse_ recs) = length recs) as Hlen.
  { rewrite <- (length_fmap IterItem.Key), Hkeys.
    destruct reverse_; by rewrite ?length_reverse, length_fmap. }
  destruct (yields_drain _ _ (S (size s)) Hy) as (c & Hdrain & Hrel).
  { rewrite Hlen. pose proof (records_length_le s range). fold recs in H. lia. }
  exists (session_items reverse_ recs), c.
  split; [done|]. split; [done|]. split.
  - rewrite Hkeys. destruct reverse_; [rewrite reverse_Permutation|];
      apply records_NoDup.
  - intros key value.
    transitivity ((key, value) ∈ recs).
    + transitivity ((key, value) ∈ (if reverse_ then reverse recs else recs)).
      * rewrite <- Hrecs, list_elem_of_fmap. split.
        -- intros (item & Hin & <- & <-). by exists item.
        -- intros (item & [= -> ->] & Hin). by exists item.
      * destruct reverse_; [apply elem_of_reverse|done].
    + unfold recs. rewrite elem_of_records. unfold range.
      by rewrite in_range_prefix.
Qed.

Lemma iteration_returns_the_records_witness :
  exists items c,
    drain 4 (GetIterator users Init.2 "user:" true) = (items, true, c)
    /\ it_released (cursor c) = true
    /\ NoDup (IterItem.Key <$> items)
    /\ forall key value,
         (exists item, item ∈ items /\ IterItem.Key item = key
                       /\ IterItem.Value item = value)
         <-> db users !! key = Some value
             /\ has_prefix (makeKey "user:") key = true.
Proof.
  apply (iteration_returns_the_records users Init.2 "user:" true (db users)).
  reflexivity.
Defined.

(** X17. For a keyspace of fewer than 2^63 records, the items of a whole
    forward iteration are numbered 1, 2, 3, ... and those of a whole
    reverse iteration 0, 1, 2, ..., without gaps. *)
Theorem sequence_numbers_of_a_session (w : World) (st : LevelDBBackend)
    (prefix : string) (reverse_ : bool) (s : Store) :
  view w (core st) = Some s ->
  Z.of_nat (size s) < 2 ^ 63 ->
  exists items c,
    drain (S (size s)) (GetIterator w st prefix reverse_) = (items, true, c)
    /\ IterItem.N <$> items
       = seqZ (if reverse_ then 0 else 1) (Z.of_nat (length items)).
Proof.
  intros Hs Hsize.
  set (range := if (0 <? String.length prefix)%nat
                then Some (BytesPrefix (makeKey prefix)) else None).
  set (recs := records s range).
  pose proof (records_length_le s range) as Hle. fold recs in Hle.
  pose proof (yields_GetIterator w st prefix reverse_ s Hs) as Hy.
  fold range recs in Hy.
  assert (length (session_items reverse_ recs) = length recs) as Hlen.
  { rewrite <- (length_fmap IterItem.Key), session_items_keys.
    destruct reverse_; by rewrite ?length_reverse, length_fmap. }
  destruct (yields_drain _ _ (S (size s)) Hy) as (c & Hdrain & _).
  { rewrite Hlen. lia. }
  exists (session_items reverse_ recs), c. split; [done|].
  revert Hlen. unfold session_items. destruct reverse_.
  - destruct (reverse recs) as [|kv recs'] eqn:Hrev; [done|].
    cbn [length]. rewrite fmap_cons, length_numbered. simpl IterItem.N.
    intros Hlen. rewrite seqZ_cons by lia. f_equal.
    rewrite numbered_N by lia. f_equal; lia.
  - rewrite length_numbered. intros _. by rewrite numbered_N by lia.
Qed.

Lemma sequence_numbers_of_a_session_witness :
  exists items c,
    drain 4 (GetIterator users Init.2 "" true) = (items, true, c)
    /\ IterItem.N <$> items = seqZ 0 (Z.of_nat (length items)).
Proof.
  apply (sequence_numbers_of_a_session users Init.2 "" true (db users)).
  - reflexivity.
  - by vm_compute.
Defined.

(** ** Overwriting and reading back *)

Section Overwriting.
Context `{Codec}.

(** X18. On a present key, [Set] followed by [Get] gives back the value
    under the round-trip law of the generic encoder alone, also for a
    value that exposes [Serialize]: [Set] never consults it. *)
Theorem Set_then_Get_round_trip (w : World) (st : LevelDBBackend)
    (k : string) (v target : Any) (equiv : Any -> Any -> Prop) :
  Has w st k = (true, None) ->
  (exists b v', EncodeJSONValue v = (b, None)
     /\ Unmarshal b target = (v', None) /\ equiv v' v) ->
  exists w' v', Set_ w st k v = (None, w')
    /\ Get w' st k target = (v', None) /\ equiv v' v.
Proof.
  intros Hk (b & v' & Hv & Hdecode & Hequiv).
  destruct (Set_present _ _ _ _ _ Hv Hk) as (s & Hs & HSet).
  eexists _, v'. split; [exact HSet|]. split; [|done].
  rewrite (Get_GetRaw _ _ _ _ b).
  - by rewrite Hdecode.
  - rewrite (GetRaw_after_put _ _ _ _ _ _ Hs). by rewrite decide_True.
Qed.

End Overwriting.

Lemma Set_then_Get_round_trip_witness :
  exists w' v', Set_ with_k Init.2 "k" (GoInt 5) = (None, w')
    /\ Get w' Init.2 "k" (GoInt 0) = (v', None) /\ v' = GoInt 5.
Proof.
  apply (@Set_then_Get_round_trip codec with_k Init.2 "k" (GoInt 5)
           (GoInt 0) eq).
  - reflexivity.
  - exists (numeral 5), (GoInt 5). repeat split; by vm_compute.
Defined.
